(** * type.js: client-side interactivity of the site, embedded in Rocq

    The script wires independent features to DOM events: a testimonial
    carousel, a persisted dark/light theme, a contact-form validator with a
    simulated send, and a reveal-on-scroll observer.  Each feature is
    embedded below as pure functions over an explicit page state; host
    facilities the script calls (timers, localStorage, class lists, the
    regular-expression engine) are modelled next to the code that uses them.

    Part I holds the definitions, Part II the lemmas and theorems. *)

From Stdlib Require Import ZArith NArith Lia Bool Ascii String DecimalString.
From stdpp Require Import gmap strings list.

(* ===================================================================== *)
(** * Part I: definitions                                                 *)
(* ===================================================================== *)

(** ** JavaScript strings

    A JavaScript string is a sequence of UTF-16 code units; [length]
    counts code units.  Literals of the script are written [js "..."]. *)

Definition jsstring : Type := list N.

Definition js (s : string) : jsstring :=
  map N_of_ascii (list_ascii_of_string s).

(** JavaScript truthiness of a string: the empty string is falsy. *)
Definition truthy (s : jsstring) : bool :=
  match s with [] => false | _ :: _ => true end.

(** [a || b] on strings. *)
Definition or_else (a b : jsstring) : jsstring :=
  if truthy a then a else b.

(** ECMAScript WhiteSpace and LineTerminator code units: the set stripped
    by [String.prototype.trim] and matched by [\s]. *)
Definition is_ws (c : N) : bool :=
  ((9 <=? c) && (c <=? 13)
   || (c =? 32) || (c =? 160) || (c =? 5760)
   || (8192 <=? c) && (c <=? 8202)
   || (c =? 8232) || (c =? 8233) || (c =? 8239) || (c =? 8287)
   || (c =? 12288) || (c =? 65279))%N.

Fixpoint trimStart (s : jsstring) : jsstring :=
  match s with
  | c :: s' => if is_ws c then trimStart s' else s
  | [] => []
  end.

Definition trimEnd (s : jsstring) : jsstring :=
  rev (trimStart (rev s)).

Definition trim (s : jsstring) : jsstring :=
  trimEnd (trimStart s).

(** [String.prototype.toLowerCase], code unit by code unit, for the Basic
    Latin and Latin-1 letters.  The case mappings of the remaining Unicode
    letters are not tabled here; they lie outside white space, "@" and ".",
    the only code units the e-mail pattern distinguishes, so that the
    verdict of the validator is the same under any case conversion (see
    [validateEmail_any_case_conversion]). *)
Definition lower_unit (c : N) : N :=
  (if (65 <=? c) && (c <=? 90) then c + 32
   else if (192 <=? c) && (c <=? 222) && negb (c =? 215) then c + 32
   else c)%N.

Definition toLowerCase (s : jsstring) : jsstring := map lower_unit s.

(** ** Regular expressions

    The fragment of the pattern language the script uses, with
    [RegExp.prototype.test] on a pattern anchored by [^] and [$] as a
    whole-string match computed by derivatives. *)

Inductive regex : Type :=
| Void : regex
| Eps : regex
| Class : (N -> bool) -> regex
| Cat : regex -> regex -> regex
| Alt : regex -> regex -> regex
| Star : regex -> regex.

(** [r+] *)
Definition Plus (r : regex) : regex := Cat r (Star r).

(** A literal code unit. *)
Definition Chr (c : N) : regex := Class (N.eqb c).

Fixpoint nullable (r : regex) : bool :=
  match r with
  | Void => false
  | Eps => true
  | Class _ => false
  | Cat r1 r2 => nullable r1 && nullable r2
  | Alt r1 r2 => nullable r1 || nullable r2
  | Star _ => true
  end.

Fixpoint deriv (c : N) (r : regex) : regex :=
  match r with
  | Void => Void
  | Eps => Void
  | Class p => if p c then Eps else Void
  | Cat r1 r2 =>
      if nullable r1
      then Alt (Cat (deriv c r1) r2) (deriv c r2)
      else Cat (deriv c r1) r2
  | Alt r1 r2 => Alt (deriv c r1) (deriv c r2)
  | Star r1 => Cat (deriv c r1) (Star r1)
  end.

Fixpoint re_test (r : regex) (s : jsstring) : bool :=
  match s with
  | [] => nullable r
  | c :: s' => re_test (deriv c r) s'
  end.

(** The language of a pattern, as the reference for [re_test]. *)
Inductive lang : regex -> jsstring -> Prop :=
| lang_eps : lang Eps []
| lang_class p c : p c = true -> lang (Class p) [c]
| lang_cat r1 r2 s1 s2 : lang r1 s1 -> lang r2 s2 -> lang (Cat r1 r2) (s1 ++ s2)
| lang_alt_l r1 r2 s : lang r1 s -> lang (Alt r1 r2) s
| lang_alt_r r1 r2 s : lang r2 s -> lang (Alt r1 r2) s
| lang_star_nil r : lang (Star r) []
| lang_star_cons r s1 s2 :
    lang r s1 -> lang (Star r) s2 -> lang (Star r) (s1 ++ s2).

Definition at_sign : N := 64.
Definition full_stop : N := 46.

(** [[^\s@]] *)
Definition plain (c : N) : bool := negb (is_ws c) && negb (N.eqb c at_sign).

(** [/^[^\s@]+@[^\s@]+\.[^\s@]+$/] *)
Definition emailRe : regex :=
  Cat (Plus (Class plain))
    (Cat (Chr at_sign)
       (Cat (Plus (Class plain))
          (Cat (Chr full_stop) (Plus (Class plain))))).

(** A map on code units under which every character class of a pattern is
    stable. *)
Fixpoint classes_respect (f : N -> N) (r : regex) : Prop :=
  match r with
  | Void | Eps => True
  | Class p => forall c, p (f c) = p c
  | Cat r1 r2 | Alt r1 r2 => classes_respect f r1 /\ classes_respect f r2
  | Star r1 => classes_respect f r1
  end.

(** The code units the e-mail pattern tells apart from all others. *)
Definition distinguished (c : N) : bool :=
  is_ws c || N.eqb c at_sign || N.eqb c full_stop.

(** What any case conversion of a string looks like to the e-mail pattern:
    white space, "@" and "." stay in place, and every other code unit
    becomes a non-empty run of other code units (one unit for most letters,
    more where Unicode lower-casing expands a letter). *)
Inductive case_converted : jsstring -> jsstring -> Prop :=
| cc_nil : case_converted [] []
| cc_keep c s s' :
    distinguished c = true ->
    case_converted s s' -> case_converted (c :: s) (c :: s')
| cc_map c b s s' :
    distinguished c = false ->
    b <> [] -> Forall (fun x => distinguished x = false) b ->
    case_converted s s' -> case_converted (c :: s) (b ++ s').

(** ** Testimonial carousel (type.js, lines 150-175) *)

Module Carousel.

Local Open Scope Z_scope.

(** The three elements that carry the hover listeners. *)
Inductive Control : Type := PrevBtn | NextBtn | Track.

(** Inline style of the track, as [showIdx] writes it. *)
Record TrackStyle : Type := {
  display : jsstring;
  gap : jsstring;
  transition : jsstring;
  transform : jsstring
}.

(** A testimonial item: only its [style.minWidth] is written. *)
Record Item : Type := { minWidth : jsstring }.

(** The closure state of the slider together with the host's table of
    running interval timers.  [setInterval] hands out fresh handles. *)
Record State : Type := {
  items : list Item;
  idx : Z;
  trackStyle : TrackStyle;
  hasPrev : bool;
  hasNext : bool;
  tsInterval : nat;
  timers : gset nat;
  nextHandle : nat
}.

(** [items.length] *)
Definition itemCount (st : State) : Z := Z.of_nat (length (items st)).

(** JavaScript [%] on integers truncates towards zero: the result has
    the sign of the dividend. *)
Definition js_rem (a b : Z) : Z := Z.rem a b.

(** JavaScript numbers are IEEE doubles: integers are added exactly as long
    as the sum does not exceed 2^53 in magnitude, and [%] is exact.  The
    sums below are written over [Z]; they are the script's as long as
    [i + items.length] stays within this limit, which holds for every call
    the script makes ([idx - 1], [idx + 1] and [0]). *)
Definition exact_limit : Z := 2 ^ 53.

(** Number to string inside the template literal. *)
Definition showNumber (z : Z) : jsstring :=
  js (NilZero.string_of_int (Z.to_int z)).

Definition showIdx (i : Z) (st : State) : State :=
  if (length (items st) =? 0)%nat then st
  else
    let idx' := js_rem (i + itemCount st) (itemCount st) in
    let offset := - idx' * 100 in
    {| items := map (fun _ => {| minWidth := js "100%" |}) (items st);
       idx := idx';
       trackStyle :=
         {| display := js "flex";
            gap := js "1rem";
            transition := js "transform .5s";
            transform := js "translateX(" ++ showNumber offset ++ js "%)" |};
       hasPrev := hasPrev st;
       hasNext := hasNext st;
       tsInterval := tsInterval st;
       timers := timers st;
       nextHandle := nextHandle st |}.

(** [setInterval(() => showIdx(idx + 1), 5000)]: the host starts a new
    repeating timer and returns its handle. *)
Definition setInterval (st : State) : nat * State :=
  (nextHandle st,
   {| items := items st; idx := idx st; trackStyle := trackStyle st;
      hasPrev := hasPrev st; hasNext := hasNext st;
      tsInterval := tsInterval st;
      timers := timers st ∪ {[ nextHandle st ]};
      nextHandle := S (nextHandle st) |}).

(** [clearInterval(h)]: the host stops timer [h]; unknown handles are
    ignored. *)
Definition clearInterval (h : nat) (st : State) : State :=
  {| items := items st; idx := idx st; trackStyle := trackStyle st;
     hasPrev := hasPrev st; hasNext := hasNext st;
     tsInterval := tsInterval st;
     timers := timers st ∖ {[ h ]};
     nextHandle := nextHandle st |}.

(** [tsInterval = h] *)
Definition assignInterval (h : nat) (st : State) : State :=
  {| items := items st; idx := idx st; trackStyle := trackStyle st;
     hasPrev := hasPrev st; hasNext := hasNext st;
     tsInterval := h;
     timers := timers st;
     nextHandle := nextHandle st |}.

(** [el && el.addEventListener(...)]: the track exists inside the
    [if (track)] block, the two buttons may be absent. *)
Definition present (c : Control) (st : State) : bool :=
  match c with
  | PrevBtn => hasPrev st
  | NextBtn => hasNext st
  | Track => true
  end.

Inductive Event : Type :=
| Click (c : Control)
| MouseEnter (c : Control)
| MouseLeave (c : Control)
| Tick (h : nat).

Definition handle (ev : Event) (st : State) : State :=
  match ev with
  | Click PrevBtn => if hasPrev st then showIdx (idx st - 1) st else st
  | Click NextBtn => if hasNext st then showIdx (idx st + 1) st else st
  | Click Track => st
  | MouseEnter c =>
      if present c st then clearInterval (tsInterval st) st else st
  | MouseLeave c =>
      if present c st
      then let '(h, st') := setInterval st in assignInterval h st'
      else st
  | Tick h =>
      if bool_decide (h ∈ timers st) then showIdx (idx st + 1) st else st
  end.

Definition run (evs : list Event) (st : State) : State :=
  foldl (fun s ev => handle ev s) st evs.

(** The [if (track) { ... }] block at page load: [idx = 0], autoplay
    started, [showIdx(0)]. *)
Definition init (its : list Item) (prev next : bool) : State :=
  let st0 :=
    {| items := its; idx := 0;
       trackStyle := {| display := []; gap := []; transition := [];
                        transform := [] |};
       hasPrev := prev; hasNext := next;
       tsInterval := 0%nat; timers := ∅; nextHandle := 1%nat |} in
  let '(h, st1) := setInterval st0 in
  showIdx 0 (assignInterval h st1).


(** The invariant of the slider: the index addresses an item. *)
Definition idx_in_range (st : State) : Prop :=
  0 <= idx st < itemCount st.

(** Handles the host has not handed out yet are not running. *)
Definition handles_fresh (st : State) : Prop :=
  forall h, h ∈ timers st -> (h < nextHandle st)%nat.

(** Hover events that alternate: the pointer enters, leaves, enters, ...
    [inside] tells whether it is over a control; events on a button that
    is absent from the page ([prev], [next] false) have no listener and do
    not count. *)
Definition live (prev next : bool) (c : Control) : bool :=
  match c with PrevBtn => prev | NextBtn => next | Track => true end.

Fixpoint alternating (prev next : bool) (inside : bool)
    (evs : list Event) : bool :=
  match evs with
  | [] => true
  | MouseEnter c :: evs' =>
      if live prev next c then negb inside && alternating prev next true evs'
      else alternating prev next inside evs'
  | MouseLeave c :: evs' =>
      if live prev next c then inside && alternating prev next false evs'
      else alternating prev next inside evs'
  | _ :: evs' => alternating prev next inside evs'
  end.

(** A carousel of three items, both buttons present, as the page-load
    code leaves it. *)
Definition three_items : State :=
  init [ {| minWidth := [] |}; {| minWidth := [] |}; {| minWidth := [] |} ]
    true true.

End Carousel.

(** ** Theme manager (type.js, lines 87-112) *)

Module Theme.

(** Result of a host call that may throw. *)
Inductive outcome (A : Type) : Type :=
| Returns (a : A)
| Throws.
Arguments Returns {A} a.
Arguments Throws {A}.

(** [localStorage]: its entries, and whether reads and writes go through
    or throw (storage disabled, quota exceeded). *)
Record Storage : Type := {
  entries : gmap jsstring jsstring;
  readable : bool;
  writable : bool
}.

Definition getItem (k : jsstring) (s : Storage) : outcome (option jsstring) :=
  if readable s then Returns (entries s !! k) else Throws.

Definition setItem (k v : jsstring) (s : Storage) : outcome Storage :=
  if writable s
  then Returns {| entries := <[k := v]> (entries s);
                  readable := readable s; writable := writable s |}
  else Throws.

(** What the theme code reads and writes: the class list of [body], the
    storage, the toggle button ([None] when [#darkToggle] is missing,
    otherwise its [innerHTML]) and [matchMedia] ([None] when the function
    is missing, otherwise [.matches] of the dark-scheme query). *)
Record Page : Type := {
  bodyClasses : gset jsstring;
  localStorage : Storage;
  darkToggle : option jsstring;
  matchMedia : option bool
}.

Definition themeKey : jsstring := js "procorp-theme".
Definition theme_dark : jsstring := js "theme-dark".
Definition theme_light : jsstring := js "theme-light".
Definition dark : jsstring := js "dark".
Definition light : jsstring := js "light".
(** The two icon fragments; 34 is the double quote. *)
Definition sunIcon : jsstring :=
  js "<i class=" ++ [34%N] ++ js "fa-solid fa-sun" ++ [34%N] ++ js "></i>".
Definition moonIcon : jsstring :=
  js "<i class=" ++ [34%N] ++ js "fa-solid fa-moon" ++ [34%N] ++ js "></i>".

Definition applyTheme (mode : jsstring) (p : Page) : Page :=
  let classes :=
    if decide (mode = dark)
    then (bodyClasses p ∪ {[ theme_dark ]}) ∖ {[ theme_light ]}
    else (bodyClasses p ∪ {[ theme_light ]}) ∖ {[ theme_dark ]} in
  let storage :=
    match setItem themeKey mode (localStorage p) with
    | Returns s => s
    | Throws => localStorage p
    end in
  let toggle :=
    match darkToggle p with
    | Some _ => Some (if decide (mode = dark) then sunIcon else moonIcon)
    | None => None
    end in
  {| bodyClasses := classes; localStorage := storage;
     darkToggle := toggle; matchMedia := matchMedia p |}.

(** The guarded read [stored]. *)
Definition stored (p : Page) : option jsstring :=
  match getItem themeKey (localStorage p) with
  | Returns v => v
  | Throws => None
  end.

(** [window.matchMedia && window.matchMedia(...).matches], as a
    condition. *)
Definition prefersDark (p : Page) : bool :=
  match matchMedia p with Some b => b | None => false end.

(** ["// init theme"] *)
Definition initTheme (p : Page) : Page :=
  match stored p with
  | Some s =>
      if truthy s then applyTheme s p
      else applyTheme (if prefersDark p then dark else light) p
  | None => applyTheme (if prefersDark p then dark else light) p
  end.

(** The click listener of [#darkToggle]; without the element no listener
    is registered. *)
Definition toggleClick (p : Page) : Page :=
  match darkToggle p with
  | Some _ =>
      let isDark := bool_decide (theme_dark ∈ bodyClasses p) in
      applyTheme (if isDark then light else dark) p
  | None => p
  end.

(** The theme a page displays, when its body carries exactly one of the
    two theme classes. *)
Inductive theme : Type := Light | Dark.

Definition displayed (p : Page) : option theme :=
  match bool_decide (theme_dark ∈ bodyClasses p),
        bool_decide (theme_light ∈ bodyClasses p) with
  | true, false => Some Dark
  | false, true => Some Light
  | _, _ => None
  end.

Definition theme_name (t : theme) : jsstring :=
  match t with Dark => dark | Light => light end.

(** The value held in storage under the theme key. *)
Definition persisted (p : Page) : option jsstring :=
  entries (localStorage p) !! themeKey.

Definition opposite (t : theme) : theme :=
  match t with Dark => Light | Light => Dark end.

(** A page in the light theme whose storage holds "light" and refuses
    writes (quota exceeded). *)
Definition quota_page : Page :=
  {| bodyClasses := {[ theme_light ]};
     localStorage := {| entries := {[ themeKey := light ]};
                        readable := true; writable := false |};
     darkToggle := Some moonIcon;
     matchMedia := Some false |}.

(** A freshly loaded page whose storage holds the empty string under the
    theme key, on a system that prefers dark. *)
Definition empty_entry_page : Page :=
  {| bodyClasses := ∅;
     localStorage := {| entries := {[ themeKey := [] ]};
                        readable := true; writable := true |};
     darkToggle := Some [];
     matchMedia := Some true |}.

(** A freshly loaded page whose storage holds a value that is no theme
    name. *)
Definition corrupted_page : Page :=
  {| bodyClasses := ∅;
     localStorage := {| entries := {[ themeKey := js "blue" ]};
                        readable := true; writable := true |};
     darkToggle := Some [];
     matchMedia := Some true |}.

(** [corrupted_page] once its theme is initialised. *)
Definition corrupted_page_loaded : Page := initTheme corrupted_page.

(** Initialisation as the specification words it: an ordered list of
    providers, the first one with a result wins. *)
Definition providers (p : Page) : list (option jsstring) :=
  [ stored p;
    if prefersDark p then Some dark else None;
    Some light ].

Fixpoint first_result (l : list (option jsstring)) : option jsstring :=
  match l with
  | Some v :: _ => Some v
  | None :: l' => first_result l'
  | [] => None
  end.

Definition initTheme_spec (p : Page) : Page :=
  match first_result (providers p) with
  | Some m => applyTheme m p
  | None => p
  end.

(** A fresh load of the page that finds the storage as [p] left it: the
    body has no theme class yet and the system prefers light. *)
Definition reloaded (p : Page) : Page :=
  {| bodyClasses := ∅;
     localStorage := localStorage p;
     darkToggle := Some [];
     matchMedia := Some false |}.

End Theme.

(** ** Contact form (type.js, lines 114-148) *)

Module ContactForm.

(** A form control: its current and its default value. *)
Record Control : Type := { value : jsstring; defaultValue : jsstring }.

(** The three controls the handler reads; a control may be missing from
    the markup. *)
Record Form : Type := {
  nameField : option Control;
  emailField : option Control;
  messageField : option Control
}.

(** [#formResponse]: its text and its inline colour. *)
Record Response : Type := { textContent : jsstring; color : jsstring }.

(** The one closure the script hands to [setTimeout]. *)
Inductive Callback : Type := ConfirmAndReset.

(** The form, the response element ([None] when missing), the computed
    value of [--accent-600], the host clock in milliseconds and the
    pending timeouts with their due times. *)
Record Page : Type := {
  form : Form;
  formResponse : option Response;
  accent600 : jsstring;
  now : N;
  timeouts : list (N * Callback)
}.

(** The object [data]. *)
Record Data : Type := { name : jsstring; email : jsstring; message : jsstring }.

Definition nameError : jsstring := js "Please enter your name.".
Definition emailError : jsstring := js "Please enter a valid email.".
Definition messageError : jsstring :=
  js "Message must be at least 10 characters.".
Definition errorColor : jsstring := js "#d9534f".
Definition defaultAccent : jsstring := js "#0b77d1".
(** The literal as the source file spells it: "Sending" and the code
    units U+00E2, U+20AC, U+00A6. *)
Definition sendingText : jsstring := js "Sending" ++ [226; 8364; 166]%N.
Definition thanksText : jsstring :=
  js "Thank you! Your message has been received. We will contact you shortly.".
Definition sendDelay : N := 900.

(** [(form.x && form.x.value) ? form.x.value.trim() : ''] *)
Definition fieldText (c : option Control) : jsstring :=
  match c with
  | Some ctl => if truthy (value ctl) then trim (value ctl) else []
  | None => []
  end.

Definition readData (f : Form) : Data :=
  {| name := fieldText (nameField f);
     email := fieldText (emailField f);
     message := fieldText (messageField f) |}.

Definition validateEmail (email : jsstring) : bool :=
  re_test emailRe (toLowerCase (or_else email [])).

Definition setResponse (r : option Response) (p : Page) : Page :=
  {| form := form p; formResponse := r; accent600 := accent600 p;
     now := now p; timeouts := timeouts p |}.

Definition showFormError (msg : jsstring) (p : Page) : Page :=
  match formResponse p with
  | None => p
  | Some _ =>
      setResponse (Some {| textContent := msg; color := errorColor |}) p
  end.

(** [setTimeout(cb, delay)] *)
Definition setTimeout (cb : Callback) (delay : N) (p : Page) : Page :=
  {| form := form p; formResponse := formResponse p;
     accent600 := accent600 p; now := now p;
     timeouts := timeouts p ++ [((now p + delay)%N, cb)] |}.

(** The submit listener of [#contactForm]. *)
Definition submit (p : Page) : Page :=
  match formResponse p with
  | None => p
  | Some r =>
      let p1 :=
        setResponse (Some {| textContent := []; color := color r |}) p in
      let data := readData (form p1) in
      if negb (truthy (name data)) then showFormError nameError p1
      else if negb (validateEmail (email data))
      then showFormError emailError p1
      else if negb (truthy (message data))
              || (length (message data) <? 10)%nat
      then showFormError messageError p1
      else
        let p2 :=
          setResponse
            (Some {| textContent := sendingText;
                     color := or_else (accent600 p1) defaultAccent |}) p1 in
        setTimeout ConfirmAndReset sendDelay p2
  end.

(** [form.reset()] *)
Definition resetControl (c : option Control) : option Control :=
  match c with
  | Some ctl =>
      Some {| value := defaultValue ctl; defaultValue := defaultValue ctl |}
  | None => None
  end.

Definition reset (f : Form) : Form :=
  {| nameField := resetControl (nameField f);
     emailField := resetControl (emailField f);
     messageField := resetControl (messageField f) |}.

(** The body of the timeout closure. *)
Definition runCallback (cb : Callback) (p : Page) : Page :=
  match cb with
  | ConfirmAndReset =>
      let r :=
        match formResponse p with
        | Some r0 => Some {| textContent := thanksText; color := color r0 |}
        | None => None
        end in
      {| form := reset (form p); formResponse := r;
         accent600 := accent600 p; now := now p; timeouts := timeouts p |}
  end.

(** The host lets [dt] milliseconds pass without any other event: the
    clock advances and the timeouts that have come due run, in the order
    they were set. *)
Definition advance (dt : N) (p : Page) : Page :=
  let t := (now p + dt)%N in
  let due := filter (fun e => (e.1 <= t)%N) (timeouts p) in
  let rest := filter (fun e => ¬ (e.1 <= t)%N) (timeouts p) in
  foldl (fun q e => runCallback e.2 q)
    {| form := form p; formResponse := formResponse p;
       accent600 := accent600 p; now := t; timeouts := rest |}
    due.

(** The three rules, for the reading of the specification: checked in
    this order, the first that fails is the one reported. *)
Inductive Rule : Type := NameRule | EmailRule | MessageRule.

Definition rule_ok (r : Rule) (d : Data) : bool :=
  match r with
  | NameRule => truthy (name d)
  | EmailRule => validateEmail (email d)
  | MessageRule => (10 <=? length (message d))%nat
  end.

Definition rule_message (r : Rule) : jsstring :=
  match r with
  | NameRule => nameError
  | EmailRule => emailError
  | MessageRule => messageError
  end.

Fixpoint first_failing (rules : list Rule) (d : Data) : option Rule :=
  match rules with
  | r :: rules' => if rule_ok r d then first_failing rules' d else Some r
  | [] => None
  end.

Definition rule_order : list Rule := [NameRule; EmailRule; MessageRule].

(** The response element shows message [m] in the error style. *)
Definition showsError (m : jsstring) (p : Page) : Prop :=
  formResponse p =
  Some {| textContent := m; color := errorColor |}.

(** A page with the three controls filled in, an empty response element,
    no accent colour defined and nothing pending. *)
Definition filled (n e m : jsstring) : Page :=
  {| form :=
       {| nameField := Some {| value := n; defaultValue := [] |};
          emailField := Some {| value := e; defaultValue := [] |};
          messageField := Some {| value := m; defaultValue := [] |} |};
     formResponse := Some {| textContent := []; color := [] |};
     accent600 := [];
     now := 0;
     timeouts := [] |}.

(** The shape of an accepted address in the words of the specification:
    no white space, exactly one "@" with text on both sides, and a "."
    after the "@" with text after it. *)
Definition email_shape_spec (s : jsstring) : Prop :=
  Forall (fun c => is_ws c = false) s /\
  exists l r : jsstring,
    s = l ++ at_sign :: r /\ (at_sign ∉ l) /\ (at_sign ∉ r) /\
    l <> [] /\ r <> [] /\
    exists d t : jsstring, r = d ++ full_stop :: t /\ t <> [].

(** The shape the pattern accepts: as above, and the "." is not the
    first code unit after the "@". *)
Definition email_shape (s : jsstring) : Prop :=
  Forall (fun c => is_ws c = false) s /\
  exists l r : jsstring,
    s = l ++ at_sign :: r /\ (at_sign ∉ l) /\ (at_sign ∉ r) /\
    l <> [] /\
    exists d t : jsstring, r = d ++ full_stop :: t /\ d <> [] /\ t <> [].

(** The user types into the form: the controls are replaced, everything
    else stays. *)
Definition edit (f : Form) (p : Page) : Page :=
  {| form := f; formResponse := formResponse p; accent600 := accent600 p;
     now := now p; timeouts := timeouts p |}.

(** The value and the default value of a control, when it exists. *)
Definition fieldValue (c : option Control) : option jsstring :=
  match c with Some ctl => Some (value ctl) | None => None end.

Definition fieldDefault (c : option Control) : option jsstring :=
  match c with Some ctl => Some (defaultValue ctl) | None => None end.

(** The number of "@" in a string. *)
Definition count_at (s : jsstring) : nat :=
  length (filter (fun c => c = at_sign) s).

End ContactForm.

(** ** Reveal on scroll (type.js, lines 67-76) *)

Module Reveal.

(** An [IntersectionObserverEntry]: the element it is about, and the
    host's verdict against the observer's threshold. *)
Record Entry : Type := { target : nat; isIntersecting : bool }.

(** The elements that carry the class [is-visible], and the elements the
    observer still watches. *)
Record State : Type := { visible : gset nat; observed : gset nat }.

(** One turn of the [for ... of] loop. *)
Definition onEntry (st : State) (ent : Entry) : State :=
  if isIntersecting ent
  then {| visible := visible st ∪ {[ target ent ]};
          observed := observed st ∖ {[ target ent ]} |}
  else st.

(** The observer callback on one batch of entries. *)
Definition callback (entries : list Entry) (st : State) : State :=
  foldl onEntry st entries.

(** [qsa('[data-animate]').forEach(el => observer.observe(el))] *)
Definition observeAll (marked : list nat) (st : State) : State :=
  {| visible := visible st; observed := observed st ∪ list_to_set marked |}.

(** The callback invoked on successive batches. *)
Definition run (batches : list (list Entry)) (st : State) : State :=
  foldl (fun s es => callback es s) st batches.

(** Element [e] is reported as intersecting somewhere in the batches. *)
Definition intersects (e : nat) (batches : list (list Entry)) : Prop :=
  exists es ent, es ∈ batches /\ ent ∈ es /\
                 target ent = e /\ isIntersecting ent = true.

(** The number of callback invocations, along the batches, at which [e]
    goes from unmarked to marked. *)
Fixpoint reveals (e : nat) (batches : list (list Entry)) (st : State) : nat :=
  match batches with
  | [] => 0
  | es :: rest =>
      let st' := callback es st in
      (if bool_decide (e ∉ visible st) && bool_decide (e ∈ visible st')
       then 1 else 0) + reveals e rest st'
  end.

(** The number of callback invocations at which [e] loses the mark. *)
Fixpoint hides (e : nat) (batches : list (list Entry)) (st : State) : nat :=
  match batches with
  | [] => 0
  | es :: rest =>
      let st' := callback es st in
      (if bool_decide (e ∈ visible st) && bool_decide (e ∉ visible st')
       then 1 else 0) + hides e rest st'
  end.

(** Three marked elements; element 1 scrolls into view in the second
    batch and out again in the third, element 2 never does. *)
Definition sample_state : State :=
  observeAll [1; 2; 3] {| visible := ∅; observed := ∅ |}.

Definition sample_batches : list (list Entry) :=
  [ [ {| target := 1; isIntersecting := false |};
      {| target := 2; isIntersecting := false |} ];
    [ {| target := 1; isIntersecting := true |} ];
    [ {| target := 1; isIntersecting := false |};
      {| target := 3; isIntersecting := true |} ] ].

(** The targets a batch reports as intersecting. *)
Fixpoint hits (entries : list Entry) : gset nat :=
  match entries with
  | [] => ∅
  | ent :: rest =>
      if isIntersecting ent then {[ target ent ]} ∪ hits rest else hits rest
  end.

End Reveal.

(** ** Mobile navigation and in-page links (type.js, lines 34-65 and
    177-182) *)

Module Nav.

(** An element, as far as the navigation code touches it: its class list
    and its attributes. *)
Record Element : Type := {
  classList : gset jsstring;
  attributes : gmap jsstring jsstring
}.

(** [#mobileNav] and [#hamburger] ([None] when missing), whether
    [#mobileClose] exists, and [document.querySelector], which returns an
    element, returns null, or throws on a selector it cannot parse. *)
Record Page : Type := {
  mobileNav : option Element;
  hamburger : option Element;
  mobileClose : bool;
  querySelector : jsstring -> Theme.outcome (option nat)
}.

Definition open_class : jsstring := js "open".
Definition aria_hidden : jsstring := js "aria-hidden".
Definition aria_expanded : jsstring := js "aria-expanded".
Definition true_text : jsstring := js "true".
Definition false_text : jsstring := js "false".
Definition escape_key : jsstring := js "Escape".

Definition openMobile (p : Page) : Page :=
  match mobileNav p, hamburger p with
  | Some n, Some h =>
      {| mobileNav :=
           Some {| classList := classList n ∪ {[ open_class ]};
                   attributes := <[aria_hidden := false_text]> (attributes n) |};
         hamburger :=
           Some {| classList := classList h;
                   attributes := <[aria_expanded := true_text]> (attributes h) |};
         mobileClose := mobileClose p;
         querySelector := querySelector p |}
  | _, _ => p
  end.

Definition closeMobile (p : Page) : Page :=
  match mobileNav p, hamburger p with
  | Some n, Some h =>
      {| mobileNav :=
           Some {| classList := classList n ∖ {[ open_class ]};
                   attributes := <[aria_hidden := true_text]> (attributes n) |};
         hamburger :=
           Some {| classList := classList h;
                   attributes := <[aria_expanded := false_text]> (attributes h) |};
         mobileClose := mobileClose p;
         querySelector := querySelector p |}
  | _, _ => p
  end.

(** [mobileNav && mobileNav.classList.contains('open')] *)
Definition isOpen (p : Page) : bool :=
  match mobileNav p with
  | Some n => bool_decide (open_class ∈ classList n)
  | None => false
  end.

(** An element that may carry link listeners: whether it has the class
    [nav-link], the class [mobile-link], whether it is an [a] element, and
    its [href] attribute ([None] when absent). *)
Record Link : Type := {
  navLink : bool;
  mobileLink : bool;
  anchor : bool;
  href : option jsstring
}.

(** [href.startsWith('#')]; 35 is the number sign. *)
Definition startsWithHash (h : jsstring) : bool :=
  match h with
  | c :: _ => N.eqb c 35
  | [] => false
  end.

(** The selector [a[href^="#"]]. *)
Definition matchesHashAnchor (a : Link) : bool :=
  anchor a && match href a with Some h => startsWithHash h | None => false end.

(** How often the element occurs in [allScrollLinks], that is how many
    scroll listeners it carries. *)
Definition scrollListeners (a : Link) : nat :=
  (if navLink a then 1 else 0) + (if mobileLink a then 1 else 0)
  + (if matchesHashAnchor a then 1 else 0).

(** One click being dispatched: the page, whether a listener has called
    [preventDefault], and the elements scrolled into view so far. *)
Record Dispatch : Type := {
  page : Page;
  prevented : bool;
  scrolls : list nat
}.

(** One scroll listener (lines 54-64).  A throwing [querySelector] ends
    this listener only. *)
Definition scrollListener (a : Link) (d : Dispatch) : Dispatch :=
  match href a with
  | None => d
  | Some h =>
      if negb (truthy h) || negb (startsWithHash h) then d
      else
        match querySelector (page d) h with
        | Theme.Throws => d
        | Theme.Returns None => d
        | Theme.Returns (Some target) =>
            {| page := if isOpen (page d) then closeMobile (page d) else page d;
               prevented := true;
               scrolls := scrolls d ++ [target] |}
        end
  end.

(** A click on the element: the [closeMobile] listener of a mobile link
    first (line 49), then its scroll listeners. *)
Definition clickLink (a : Link) (p : Page) : Dispatch :=
  Nat.iter (scrollListeners a) (scrollListener a)
    {| page := if mobileLink a then closeMobile p else p;
       prevented := false;
       scrolls := [] |}.

Inductive Event : Type :=
| ClickHamburger
| ClickClose
| ClickLink (a : Link)
| KeyDown (key : jsstring).

Definition handle (ev : Event) (p : Page) : Page :=
  match ev with
  | ClickHamburger =>
      match hamburger p with Some _ => openMobile p | None => p end
  | ClickClose => if mobileClose p then closeMobile p else p
  | ClickLink a => page (clickLink a p)
  | KeyDown key =>
      if decide (key = escape_key)
      then if isOpen p then closeMobile p else p
      else p
  end.

Definition run (evs : list Event) (p : Page) : Page :=
  foldl (fun q ev => handle ev q) p evs.

(** The panel and the two ARIA attributes tell the same story. *)
Definition synced (p : Page) : Prop :=
  match mobileNav p, hamburger p with
  | Some n, Some h =>
      if bool_decide (open_class ∈ classList n)
      then attributes n !! aria_hidden = Some false_text /\
           attributes h !! aria_expanded = Some true_text
      else attributes n !! aria_hidden = Some true_text /\
           attributes h !! aria_expanded = Some false_text
  | _, _ => True
  end.

(** A page with both elements, the panel closed and no attribute set, on
    which only the selector "#about" resolves (to element 7) and the bare
    "#" cannot be parsed. *)
Definition sample_page : Page :=
  {| mobileNav := Some {| classList := ∅; attributes := ∅ |};
     hamburger := Some {| classList := ∅; attributes := ∅ |};
     mobileClose := true;
     querySelector := fun sel =>
       if decide (sel = js "#about") then Theme.Returns (Some 7)
       else if decide (sel = js "#") then Theme.Throws
       else Theme.Returns None |}.

(** A link of the main navigation: [<a class="nav-link" href="#about">]. *)
Definition about_link : Link :=
  {| navLink := true; mobileLink := false; anchor := true;
     href := Some (js "#about") |}.

End Nav.

(** ** FAQ keyboard toggle (type.js, lines 184-189) *)

Module Faq.

(** The keys that toggle: ['Enter'] and [' ']. *)
Definition toggles (key : jsstring) : bool :=
  bool_decide (key = js "Enter") || bool_decide (key = js " ").

(** The keydown listener of a summary, on the [open] flag of its parent:
    the result tells whether [preventDefault] was called, and the flag
    afterwards. *)
Definition keydown (key : jsstring) (open : bool) : bool * bool :=
  if toggles key then (true, negb open) else (false, open).

Definition press (keys : list jsstring) (open : bool) : bool :=
  foldl (fun o key => (keydown key o).2) open keys.

End Faq.

(* ===================================================================== *)
(** * Part II: lemmas and theorems                                        *)
(* ===================================================================== *)

(** ** Testimonial carousel *)

Section CarouselFacts.

Import Carousel.
Local Open Scope Z_scope.


Lemma showIdx_empty (i : Z) (st : State) : items st = [] -> showIdx i st = st.
Proof. intros H. unfold showIdx. rewrite H. reflexivity. Qed.

Lemma showIdx_idx (i : Z) (st : State) :
  1 <= itemCount st ->
  idx (showIdx i st) = js_rem (i + itemCount st) (itemCount st).
Proof.
  intros Hn. unfold showIdx.
  destruct (Nat.eqb_spec (length (items st)) 0) as [H0 | H0].
  - unfold itemCount in Hn. rewrite H0 in Hn. simpl in Hn. lia.
  - reflexivity.
Qed.

Lemma showIdx_itemCount (i : Z) (st : State) :
  itemCount (showIdx i st) = itemCount st.
Proof.
  unfold showIdx, itemCount.
  destruct (length (items st) =? 0)%nat; simpl; [reflexivity |].
  now rewrite length_map.
Qed.

Lemma showIdx_timers (i : Z) (st : State) :
  timers (showIdx i st) = timers st /\
  tsInterval (showIdx i st) = tsInterval st /\
  nextHandle (showIdx i st) = nextHandle st /\
  hasPrev (showIdx i st) = hasPrev st /\
  hasNext (showIdx i st) = hasNext st.
Proof. unfold showIdx. destruct (length (items st) =? 0)%nat; auto. Qed.

(** One added N is enough from -N upwards: the sum is not negative, and
    the truncating remainder is the modulo. *)
Lemma showIdx_idx_mod (i : Z) (st : State) :
  1 <= itemCount st ->
  - itemCount st <= i ->
  idx (showIdx i st) = i mod itemCount st.
Proof.
  intros Hn Hi. rewrite showIdx_idx by assumption. unfold js_rem.
  rewrite Z.rem_mod_nonneg by lia.
  rewrite <- (Z.mod_add i 1 (itemCount st)) by lia.
  f_equal. lia.
Qed.

Lemma showIdx_idx_range (i : Z) (st : State) :
  1 <= itemCount st ->
  - itemCount st <= i ->
  0 <= idx (showIdx i st) < itemCount (showIdx i st).
Proof.
  intros Hn Hi. rewrite showIdx_itemCount, showIdx_idx_mod by assumption.
  apply Z.mod_pos_bound. lia.
Qed.

(** The arguments the script passes to [showIdx], with the index in range
    and an item count an array can have, lie between -N and the limit of
    exact addition. *)
Lemma script_calls_are_exact (st : State) (i : Z) :
  idx_in_range st ->
  itemCount st < 2 ^ 32 ->
  i = idx st - 1 \/ i = idx st + 1 \/ i = 0 ->
  - itemCount st <= i /\ i + itemCount st <= exact_limit.
Proof.
  unfold idx_in_range, exact_limit. intros Hr Hn Hi.
  assert (2 ^ 32 = 4294967296) by reflexivity.
  assert (2 ^ 53 = 9007199254740992) by reflexivity.
  lia.
Qed.



(** Below -N, where no listener of the script calls it, one added N is not
    enough: with three items, [showIdx (-4)] would leave the index at -1. *)
Lemma showIdx_below_minus_N :
  idx (showIdx (-4) three_items) = -1.
Proof. reflexivity. Qed.

(** The index stays in range under every listener: the script itself
    only calls [showIdx] with [idx - 1], [idx + 1] and [0]. *)
Lemma handle_idx_in_range (ev : Event) (st : State) :
  idx_in_range st -> idx_in_range (handle ev st).
Proof.
  unfold idx_in_range. intros Hr.
  assert (Hstep : forall i, -1 <= i ->
            0 <= idx (showIdx i st) < itemCount (showIdx i st)).
  { intros i Hi. apply showIdx_idx_range; lia. }
  destruct ev as [[ | | ] | c | c | h]; simpl.
  - destruct (hasPrev st); [apply Hstep; lia | assumption].
  - destruct (hasNext st); [apply Hstep; lia | assumption].
  - assumption.
  - destruct (present c st); assumption.
  - destruct (present c st); assumption.
  - destruct (bool_decide (h ∈ timers st)); [apply Hstep; lia | assumption].
Qed.

Lemma run_idx_in_range (evs : list Event) (st : State) :
  idx_in_range st -> idx_in_range (run evs st).
Proof.
  revert st. induction evs as [| ev evs IH]; intros st Hr; simpl.
  - assumption.
  - apply IH, handle_idx_in_range, Hr.
Qed.

Lemma init_idx_in_range (its : list Item) (prev next : bool) :
  its <> [] -> idx_in_range (init its prev next).
Proof.
  intros Hne. unfold idx_in_range, init. simpl.
  apply showIdx_idx_range; unfold itemCount; simpl;
    destruct its; simpl; try congruence; lia.
Qed.

(** *** Autoplay timers *)

(** Leaving a control starts a fresh timer and keeps every running one:
    the handle that was tracked is overwritten, not cancelled. *)
Lemma mouseleave_keeps_timers (c : Control) (st : State) :
  present c st = true ->
  timers (handle (MouseLeave c) st) = timers st ∪ {[ nextHandle st ]} /\
  tsInterval (handle (MouseLeave c) st) = nextHandle st /\
  nextHandle (handle (MouseLeave c) st) = S (nextHandle st).
Proof. intros Hp. simpl. rewrite Hp. simpl. auto. Qed.

Lemma mouseenter_clears_tracked (c : Control) (st : State) :
  present c st = true ->
  timers (handle (MouseEnter c) st) = timers st ∖ {[ tsInterval st ]}.
Proof. intros Hp. simpl. rewrite Hp. reflexivity. Qed.

Lemma present_live (c : Control) (st : State) :
  present c st = live (hasPrev st) (hasNext st) c.
Proof. destruct c; reflexivity. Qed.

Lemma handle_buttons (ev : Event) (st : State) :
  hasPrev (handle ev st) = hasPrev st /\ hasNext (handle ev st) = hasNext st.
Proof.
  assert (Hs : forall i, hasPrev (showIdx i st) = hasPrev st /\
                         hasNext (showIdx i st) = hasNext st).
  { intros i. destruct (showIdx_timers i st) as (_ & _ & _ & Hp & Hn). auto. }
  destruct ev as [[ | | ] | c | c | h]; simpl.
  - destruct (Hs (idx st - 1)) as [H1 H2].
    destruct (hasPrev st) eqn:E; [rewrite H1, H2 |]; auto.
  - destruct (Hs (idx st + 1)) as [H1 H2].
    destruct (hasNext st) eqn:E; [rewrite H1, H2 |]; auto.
  - auto.
  - destruct (present c st); auto.
  - destruct (present c st); auto.
  - destruct (bool_decide (h ∈ timers st)); [apply Hs | auto].
Qed.

Lemma handle_handles_fresh (ev : Event) (st : State) :
  handles_fresh st -> handles_fresh (handle ev st).
Proof.
  unfold handles_fresh. intros Hf.
  assert (Hs : forall i h, h ∈ timers (showIdx i st) ->
                           (h < nextHandle (showIdx i st))%nat).
  { intros i h. destruct (showIdx_timers i st) as (-> & _ & -> & _).
    apply Hf. }
  destruct ev as [[ | | ] | c | c | h0]; simpl.
  - destruct (hasPrev st); [apply Hs | exact Hf].
  - destruct (hasNext st); [apply Hs | exact Hf].
  - exact Hf.
  - destruct (present c st); [| exact Hf]. simpl. intros h Hh.
    apply elem_of_difference in Hh as [Hh _]. now apply Hf.
  - destruct (present c st); [| exact Hf]. simpl. intros h Hh.
    apply elem_of_union in Hh as [Hh | Hh].
    + apply Hf in Hh. lia.
    + apply elem_of_singleton in Hh. lia.
  - destruct (bool_decide (h0 ∈ timers st)); [apply Hs | exact Hf].
Qed.

(** Every [mouseleave] on a present control adds one running timer. *)
Lemma mouseleave_one_more_timer (c : Control) (st : State) :
  handles_fresh st ->
  present c st = true ->
  size (timers (handle (MouseLeave c) st)) = S (size (timers st)).
Proof.
  intros Hf Hp. destruct (mouseleave_keeps_timers c st Hp) as (-> & _ & _).
  rewrite size_union.
  - rewrite size_singleton. lia.
  - intros h Hh Hn. apply elem_of_singleton in Hn. subst h.
    apply Hf in Hh. lia.
Qed.

(** When hover events alternate, the tracked timer is the only one that
    runs: none while the pointer is inside, one while it is outside. *)
Lemma alternating_tracked_only (evs : list Event) (st : State) (inside : bool) :
  alternating (hasPrev st) (hasNext st) inside evs = true ->
  timers st = (if inside then ∅ else {[ tsInterval st ]}) ->
  timers (run evs st) = ∅ \/
  timers (run evs st) = {[ tsInterval (run evs st) ]}.
Proof.
  revert st inside. induction evs as [| ev evs IH]; intros st inside Ha Ht.
  - simpl. destruct inside; auto.
  - assert (Hsame : timers (handle ev st) = timers st ->
                    tsInterval (handle ev st) = tsInterval st ->
                    alternating (hasPrev st) (hasNext st) inside evs = true ->
                    timers (run (ev :: evs) st) = ∅ \/
                    timers (run (ev :: evs) st)
                      = {[ tsInterval (run (ev :: evs) st) ]}).
    { intros Hti Hts Ha'. simpl. apply (IH _ inside).
      - destruct (handle_buttons ev st) as [-> ->]. exact Ha'.
      - rewrite Hti, Hts. exact Ht. }
    assert (Hshow : forall i,
              alternating (hasPrev st) (hasNext st) inside evs = true ->
              timers (run evs (showIdx i st)) = ∅ \/
              timers (run evs (showIdx i st))
                = {[ tsInterval (run evs (showIdx i st)) ]}).
    { intros i Ha'.
      destruct (showIdx_timers i st) as (Hti & Hts & _ & Hp & Hn).
      apply (IH _ inside); [now rewrite Hp, Hn | now rewrite Hti, Hts]. }
    destruct ev as [[ | | ] | c | c | h].
    + simpl in Ha |- *. destruct (hasPrev st) eqn:E; [now apply Hshow |].
      apply (IH _ inside); [rewrite E; exact Ha | exact Ht].
    + simpl in Ha |- *. destruct (hasNext st) eqn:E; [now apply Hshow |].
      apply (IH _ inside); [rewrite E; exact Ha | exact Ht].
    + simpl in Ha |- *. now apply (IH _ inside).
    + cbn [alternating] in Ha. rewrite <- present_live in Ha.
      destruct (present c st) eqn:Hp.
      * apply andb_true_iff in Ha as [Hin Ha]. apply negb_true_iff in Hin.
        subst inside. simpl. rewrite Hp. apply (IH _ true).
        -- exact Ha.
        -- simpl. rewrite Ht. apply set_eq. intros x.
           rewrite elem_of_difference, elem_of_empty. tauto.
      * apply Hsame; [simpl; now rewrite Hp .. | exact Ha].
    + cbn [alternating] in Ha. rewrite <- present_live in Ha.
      destruct (present c st) eqn:Hp.
      * apply andb_true_iff in Ha as [Hin Ha]. subst inside.
        simpl. rewrite Hp. apply (IH _ false).
        -- exact Ha.
        -- simpl. rewrite Ht. apply set_eq. intros x.
           rewrite elem_of_union, elem_of_empty. tauto.
      * apply Hsame; [simpl; now rewrite Hp .. | exact Ha].
    + simpl in Ha |- *.
      destruct (bool_decide (h ∈ timers st)); [now apply Hshow |].
      now apply (IH _ inside).
Qed.

(** X7: from page load on, hover events that strictly alternate between
    entering and leaving keep at most one timer running, whatever clicks
    and ticks come in between. *)
Lemma alternating_at_most_one_timer
    (evs : list Event) (its : list Item) (prev next : bool) :
  alternating prev next false evs = true ->
  (size (timers (run evs (init its prev next))) <= 1)%nat.
Proof.
  intros Ha.
  assert (Hinit : timers (init its prev next) = {[ 1%nat ]} /\
                  tsInterval (init its prev next) = 1%nat /\
                  hasPrev (init its prev next) = prev /\
                  hasNext (init its prev next) = next).
  { unfold init. simpl.
    match goal with |- context [showIdx 0 ?s] =>
      destruct (showIdx_timers 0 s) as (-> & -> & _ & -> & ->) end.
    simpl. split_and!; reflexivity. }
  destruct Hinit as (Ht & Hts & Hp & Hn).
  destruct (alternating_tracked_only evs (init its prev next) false)
    as [-> | ->].
  - now rewrite Hp, Hn.
  - now rewrite Ht, Hts.
  - rewrite size_empty. lia.
  - rewrite size_singleton. lia.
Qed.

(** C2, evaluated on the code: the pointer enters the track, then the
    "previous" button, and leaves both.  The two [mouseleave] events
    start timers 2 and 3; only 3 is tracked, and both keep running. *)
Theorem hover_leave_twice_two_timers :
  let st := run [MouseEnter Track; MouseEnter PrevBtn;
                 MouseLeave PrevBtn; MouseLeave Track] three_items in
  timers st = {[ 2%nat; 3%nat ]} /\ tsInterval st = 3%nat /\
  size (timers st) = 2%nat.
Proof. vm_compute. repeat split. Qed.

End CarouselFacts.

(** ** Theme manager *)

Section ThemeFacts.

Import Theme.

Lemma theme_classes_differ : theme_dark <> theme_light.
Proof. vm_compute. discriminate. Qed.

Lemma light_is_not_dark : light <> dark.
Proof. vm_compute. discriminate. Qed.

(** [classList.add(a); classList.remove(b)] on a token set. *)
Lemma class_added (C : gset jsstring) (a b : jsstring) :
  a <> b -> a ∈ (C ∪ {[ a ]}) ∖ {[ b ]}.
Proof.
  intros Hne. rewrite elem_of_difference, elem_of_union, !elem_of_singleton.
  split; [right; reflexivity | exact Hne].
Qed.

Lemma class_removed (C : gset jsstring) (a b : jsstring) :
  b ∉ (C ∪ {[ a ]}) ∖ {[ b ]}.
Proof.
  rewrite elem_of_difference, elem_of_singleton. intros [_ H].
  apply H. reflexivity.
Qed.

Lemma class_swap_back (C : gset jsstring) (a b : jsstring) :
  a <> b -> a ∈ C -> b ∉ C ->
  ((C ∪ {[ b ]}) ∖ {[ a ]} ∪ {[ a ]}) ∖ {[ b ]} = C.
Proof.
  intros Hne Ha Hb. apply set_eq. intros x.
  rewrite !elem_of_difference, !elem_of_union, !elem_of_difference,
    !elem_of_union, !elem_of_singleton.
  destruct (decide (x = a)) as [Hxa | Hxa];
    destruct (decide (x = b)) as [Hxb | Hxb]; subst; tauto.
Qed.

(** The class list after [applyTheme]: one theme class in, the other
    out. *)
Lemma applyTheme_dark_class (mode : jsstring) (p : Page) :
  theme_dark ∈ bodyClasses (applyTheme mode p) <-> mode = dark.
Proof.
  unfold applyTheme; cbn [bodyClasses].
  destruct (decide (mode = dark)) as [He | He]; split; intros H; try done.
  - apply class_added, theme_classes_differ.
  - exfalso. revert H. apply class_removed.
Qed.

Lemma applyTheme_light_class (mode : jsstring) (p : Page) :
  theme_light ∈ bodyClasses (applyTheme mode p) <-> mode <> dark.
Proof.
  unfold applyTheme; cbn [bodyClasses].
  destruct (decide (mode = dark)) as [He | He]; split; intros H; try done.
  - exfalso. revert H. apply class_removed.
  - apply class_added. intros Heq. symmetry in Heq.
    exact (theme_classes_differ Heq).
Qed.

Lemma applyTheme_displayed (mode : jsstring) (p : Page) :
  displayed (applyTheme mode p) = Some (if decide (mode = dark) then Dark else Light).
Proof.
  unfold displayed.
  pose proof (applyTheme_dark_class mode p) as Hd.
  pose proof (applyTheme_light_class mode p) as Hl.
  destruct (decide (mode = dark)) as [He | He].
  - rewrite bool_decide_eq_true_2 by (apply Hd; exact He).
    rewrite bool_decide_eq_false_2 by (rewrite Hl; tauto). reflexivity.
  - rewrite bool_decide_eq_false_2 by (rewrite Hd; exact He).
    rewrite bool_decide_eq_true_2 by (apply Hl; exact He). reflexivity.
Qed.

Lemma applyTheme_persisted (mode : jsstring) (p : Page) :
  writable (localStorage p) = true ->
  persisted (applyTheme mode p) = Some mode.
Proof.
  intros Hw. unfold persisted, applyTheme, setItem; simpl. rewrite Hw; simpl.
  apply lookup_insert_eq.
Qed.

Lemma applyTheme_write_fails (mode : jsstring) (p : Page) :
  writable (localStorage p) = false ->
  localStorage (applyTheme mode p) = localStorage p.
Proof.
  intros Hw. unfold applyTheme, setItem; simpl. rewrite Hw. reflexivity.
Qed.

Lemma applyTheme_darkToggle (mode : jsstring) (p : Page) :
  is_Some (darkToggle p) -> is_Some (darkToggle (applyTheme mode p)).
Proof. intros [x Hx]. unfold applyTheme; simpl. rewrite Hx. eauto. Qed.

Lemma displayed_classes (p : Page) (t : theme) :
  displayed p = Some t ->
  (theme_dark ∈ bodyClasses p <-> t = Dark) /\
  (theme_light ∈ bodyClasses p <-> t = Light).
Proof.
  unfold displayed. intros H.
  destruct (bool_decide (theme_dark ∈ bodyClasses p)) eqn:Hd;
    destruct (bool_decide (theme_light ∈ bodyClasses p)) eqn:Hl;
    try discriminate; apply (inj Some) in H; subst t;
    [ apply bool_decide_eq_true_1 in Hd; apply bool_decide_eq_false_1 in Hl
    | apply bool_decide_eq_false_1 in Hd; apply bool_decide_eq_true_1 in Hl ];
    split; split; intros; try discriminate; try assumption; try contradiction;
    reflexivity.
Qed.

Lemma toggleClick_displayed (p : Page) (t : theme) :
  is_Some (darkToggle p) -> displayed p = Some t ->
  displayed (toggleClick p) = Some (opposite t).
Proof.
  intros [x Hx] Ht. apply displayed_classes in Ht as [Hd _].
  unfold toggleClick. rewrite Hx. rewrite applyTheme_displayed.
  destruct t; simpl.
  - rewrite bool_decide_eq_false_2 by (rewrite Hd; discriminate).
    rewrite decide_True by reflexivity. reflexivity.
  - rewrite bool_decide_eq_true_2 by (apply Hd; reflexivity).
    rewrite decide_False by exact light_is_not_dark. reflexivity.
Qed.

Lemma toggleClick_mode (p : Page) (t : theme) :
  is_Some (darkToggle p) -> displayed p = Some t ->
  toggleClick p = applyTheme (theme_name (opposite t)) p.
Proof.
  intros [x Hx] Ht. apply displayed_classes in Ht as [Hd _].
  unfold toggleClick. rewrite Hx. destruct t; simpl.
  - rewrite bool_decide_eq_false_2 by (rewrite Hd; discriminate). reflexivity.
  - rewrite bool_decide_eq_true_2 by (apply Hd; reflexivity). reflexivity.
Qed.

Lemma toggleClick_twice_classes (p : Page) (t : theme) :
  is_Some (darkToggle p) -> displayed p = Some t ->
  bodyClasses (toggleClick (toggleClick p)) = bodyClasses p.
Proof.
  intros Hk Ht.
  pose proof (toggleClick_displayed p t Hk Ht) as Ht1.
  rewrite (toggleClick_mode (toggleClick p) (opposite t)).
  2: { rewrite (toggleClick_mode p t Hk Ht). now apply applyTheme_darkToggle. }
  2: exact Ht1.
  rewrite (toggleClick_mode p t Hk Ht).
  apply displayed_classes in Ht as [Hd Hl].
  pose proof theme_classes_differ as Hne.
  pose proof light_is_not_dark as Hne'.
  destruct t; cbn [theme_name opposite]; unfold applyTheme;
    cbn [bodyClasses].
  - rewrite decide_False by exact Hne'. rewrite decide_True by reflexivity.
    apply class_swap_back.
    + intros Heq. symmetry in Heq. exact (Hne Heq).
    + apply Hl; reflexivity.
    + rewrite Hd; discriminate.
  - rewrite decide_True by reflexivity. rewrite decide_False by exact Hne'.
    apply class_swap_back.
    + exact Hne.
    + apply Hd; reflexivity.
    + rewrite Hl; discriminate.
Qed.

(** *** Toggling *)

(** C6, as amended: from a page that displays light or dark, two clicks
    on the toggle give back the original theme (and the original class
    list), one click displays the opposite theme, and after a click whose
    storage write succeeds the persisted value names the displayed theme;
    a write that throws is swallowed and leaves the storage as it was. *)
Theorem toggle_twice_and_persisted (p : Page) (t : theme) :
  is_Some (darkToggle p) ->
  displayed p = Some t ->
  displayed (toggleClick (toggleClick p)) = Some t /\
  bodyClasses (toggleClick (toggleClick p)) = bodyClasses p /\
  displayed (toggleClick p) = Some (opposite t) /\
  (writable (localStorage p) = true ->
   persisted (toggleClick p) = theme_name <$> displayed (toggleClick p)) /\
  (writable (localStorage p) = false ->
   localStorage (toggleClick p) = localStorage p).
Proof.
  intros Hk Ht.
  pose proof (toggleClick_displayed p t Hk Ht) as Ht1.
  pose proof (toggleClick_mode p t Hk Ht) as Hm.
  assert (Hk1 : is_Some (darkToggle (toggleClick p))).
  { rewrite Hm. now apply applyTheme_darkToggle. }
  split_and!.
  - rewrite (toggleClick_displayed _ _ Hk1 Ht1). now destruct t.
  - exact (toggleClick_twice_classes p t Hk Ht).
  - exact Ht1.
  - intros Hw. rewrite Ht1. rewrite Hm. now apply applyTheme_persisted.
  - intros Hw. rewrite Hm. now apply applyTheme_write_fails.
Qed.

Lemma toggle_twice_and_persisted_witness :
  displayed (toggleClick (toggleClick corrupted_page_loaded)) = Some Light /\
  bodyClasses (toggleClick (toggleClick corrupted_page_loaded))
    = bodyClasses corrupted_page_loaded /\
  displayed (toggleClick corrupted_page_loaded) = Some (opposite Light) /\
  (writable (localStorage corrupted_page_loaded) = true ->
   persisted (toggleClick corrupted_page_loaded)
     = theme_name <$> displayed (toggleClick corrupted_page_loaded)) /\
  (writable (localStorage corrupted_page_loaded) = false ->
   localStorage (toggleClick corrupted_page_loaded)
     = localStorage corrupted_page_loaded).
Proof.
  apply (toggle_twice_and_persisted corrupted_page_loaded Light).
  - vm_compute. eauto.
  - vm_compute. reflexivity.
Defined.

(** C6, as stated, fails when the storage write throws: the page shows
    dark after the click while the storage still says "light". *)
Lemma toggle_persisted_counterexample :
  is_Some (darkToggle quota_page) /\
  displayed quota_page = Some Light /\
  displayed (toggleClick quota_page) = Some Dark /\
  persisted (toggleClick quota_page) = Some light /\
  persisted (toggleClick quota_page)
    <> theme_name <$> displayed (toggleClick quota_page).
Proof.
  assert (Hd : displayed (toggleClick quota_page) = Some Dark)
    by (vm_compute; reflexivity).
  assert (Hp : persisted (toggleClick quota_page) = Some light)
    by (vm_compute; reflexivity).
  split_and!.
  - vm_compute. eauto.
  - vm_compute. reflexivity.
  - exact Hd.
  - exact Hp.
  - rewrite Hd, Hp. vm_compute. discriminate.
Qed.

(** *** Initialisation *)

Lemma stored_nonempty (p : Page) (s : jsstring) :
  stored p = Some s -> s <> [] -> initTheme p = applyTheme s p.
Proof.
  intros Hs Hne. unfold initTheme. rewrite Hs.
  destruct s; [contradiction | reflexivity].
Qed.

Lemma stored_none_or_empty (p : Page) :
  stored p = None \/ stored p = Some [] ->
  initTheme p = applyTheme (if prefersDark p then dark else light) p.
Proof. unfold initTheme. intros [-> | ->]; reflexivity. Qed.

(** C7, as amended: a non-empty value read from storage is applied;
    otherwise (no value, an empty value, or a read that throws) dark is
    applied when the system prefers dark, and light when it does not. *)
Theorem initTheme_order (p : Page) :
  (forall s, stored p = Some s -> s <> [] -> initTheme p = applyTheme s p) /\
  (stored p = None \/ stored p = Some [] ->
   prefersDark p = true -> initTheme p = applyTheme dark p) /\
  (stored p = None \/ stored p = Some [] ->
   prefersDark p = false -> initTheme p = applyTheme light p).
Proof.
  split_and!.
  - apply stored_nonempty.
  - intros Hs Hd. rewrite stored_none_or_empty by exact Hs. now rewrite Hd.
  - intros Hs Hd. rewrite stored_none_or_empty by exact Hs. now rewrite Hd.
Qed.

Lemma initTheme_order_witness :
  initTheme corrupted_page = applyTheme (js "blue") corrupted_page.
Proof.
  refine (proj1 (initTheme_order corrupted_page) (js "blue") _ _);
    vm_compute; [reflexivity | discriminate].
Defined.

(** C7, as stated, fails on an empty stored string: it is a result of the
    first provider, yet the system preference decides. *)
Lemma initTheme_empty_entry_counterexample :
  stored empty_entry_page = Some [] /\
  displayed (initTheme_spec empty_entry_page) = Some Light /\
  displayed (initTheme empty_entry_page) = Some Dark /\
  initTheme empty_entry_page <> initTheme_spec empty_entry_page.
Proof.
  assert (Hs : displayed (initTheme_spec empty_entry_page) = Some Light)
    by (vm_compute; reflexivity).
  assert (Hc : displayed (initTheme empty_entry_page) = Some Dark)
    by (vm_compute; reflexivity).
  split_and!; try assumption.
  - vm_compute. reflexivity.
  - intros Heq. rewrite Heq in Hc. rewrite Hs in Hc. discriminate.
Qed.

(** When the stored value is non-empty the two readings agree. *)
Lemma initTheme_refines_spec (p : Page) :
  stored p <> Some [] -> initTheme p = initTheme_spec p.
Proof.
  intros Hne. unfold initTheme, initTheme_spec, providers.
  destruct (stored p) as [[| c s] |]; simpl.
  - contradiction.
  - reflexivity.
  - destruct (prefersDark p); reflexivity.
Qed.

(** C10, as amended: [applyTheme mode] leaves the body with exactly one
    theme class, the dark one iff [mode] is "dark"; it persists [mode]
    verbatim when the storage write succeeds, and leaves the storage as it
    was when the write throws; hence a non-empty value read from storage
    that is neither "light" nor "dark" initialises the page to light and
    is still the stored value afterwards. *)
Theorem applyTheme_classes_and_storage (mode : jsstring) (p : Page) :
  (theme_dark ∈ bodyClasses (applyTheme mode p) <-> mode = dark) /\
  (theme_light ∈ bodyClasses (applyTheme mode p) <-> mode <> dark) /\
  (writable (localStorage p) = true ->
   persisted (applyTheme mode p) = Some mode) /\
  (writable (localStorage p) = false ->
   localStorage (applyTheme mode p) = localStorage p) /\
  (stored p = Some mode -> mode <> [] -> mode <> light -> mode <> dark ->
   displayed (initTheme p) = Some Light /\
   persisted (initTheme p) = Some mode).
Proof.
  split; [apply applyTheme_dark_class |].
  split; [apply applyTheme_light_class |].
  split; [apply applyTheme_persisted |].
  split; [apply applyTheme_write_fails |].
  intros Hs Hne _ Hnd.
  rewrite (stored_nonempty p mode Hs Hne). split.
  - rewrite applyTheme_displayed. now rewrite decide_False by exact Hnd.
  - destruct (writable (localStorage p)) eqn:Hw.
    + now apply applyTheme_persisted.
    + unfold persisted. rewrite applyTheme_write_fails by exact Hw.
      unfold stored, getItem in Hs.
      destruct (readable (localStorage p)); [exact Hs | discriminate].
Qed.

Lemma applyTheme_classes_and_storage_witness :
  displayed (initTheme corrupted_page) = Some Light /\
  persisted (initTheme corrupted_page) = Some (js "blue").
Proof.
  apply (applyTheme_classes_and_storage (js "blue") corrupted_page);
    vm_compute; try reflexivity; discriminate.
Defined.

(** C10, as stated, fails twice: a write that throws persists nothing,
    and a stored empty string (which is outside {"light", "dark"}) hands
    the decision to the system preference and is overwritten. *)
Lemma applyTheme_persist_counterexample :
  (persisted (applyTheme dark quota_page) = Some light /\
   persisted (applyTheme dark quota_page) <> Some dark) /\
  (stored empty_entry_page = Some [] /\
   displayed (initTheme empty_entry_page) = Some Dark /\
   persisted (initTheme empty_entry_page) = Some dark /\
   persisted (initTheme empty_entry_page) <> Some []).
Proof.
  assert (H1 : persisted (applyTheme dark quota_page) = Some light)
    by (vm_compute; reflexivity).
  assert (H2 : persisted (initTheme empty_entry_page) = Some dark)
    by (vm_compute; reflexivity).
  split_and!; try assumption.
  - rewrite H1. vm_compute. discriminate.
  - vm_compute. reflexivity.
  - vm_compute. reflexivity.
  - rewrite H2. vm_compute. discriminate.
Qed.

End ThemeFacts.

(** ** Strings and patterns *)

Section PatternFacts.

Lemma or_else_nil (s : jsstring) : or_else s [] = s.
Proof. destruct s; reflexivity. Qed.

Lemma truthy_nonempty (s : jsstring) : truthy s = true <-> s <> [].
Proof. destruct s; simpl; split; congruence. Qed.

Lemma is_ws_spec (c : N) :
  is_ws c = true <->
  (9 <= c <= 13 \/ c = 32 \/ c = 160 \/ c = 5760 \/ 8192 <= c <= 8202 \/
   c = 8232 \/ c = 8233 \/ c = 8239 \/ c = 8287 \/ c = 12288 \/ c = 65279)%N.
Proof.
  unfold is_ws.
  rewrite !orb_true_iff, !andb_true_iff, !N.leb_le, !N.eqb_eq. lia.
Qed.

Lemma is_ws_false (c : N) :
  is_ws c = false <->
  ~ (9 <= c <= 13 \/ c = 32 \/ c = 160 \/ c = 5760 \/ 8192 <= c <= 8202 \/
     c = 8232 \/ c = 8233 \/ c = 8239 \/ c = 8287 \/ c = 12288 \/ c = 65279)%N.
Proof. rewrite <- is_ws_spec. destruct (is_ws c); split; congruence. Qed.

(** Lower-casing neither creates nor removes white space, "@" or ".". *)
Lemma lower_unit_cases (c : N) :
  (lower_unit c = c \/
   (lower_unit c = c + 32 /\ (65 <= c <= 90 \/ 192 <= c <= 222)))%N.
Proof.
  unfold lower_unit.
  destruct (N.leb_spec 65 c), (N.leb_spec c 90); simpl; try (right; lia);
    destruct (N.leb_spec 192 c), (N.leb_spec c 222); simpl; try (left; lia);
    destruct (N.eqb_spec c 215); simpl; try (left; lia); right; lia.
Qed.

Lemma lower_unit_ws (c : N) : is_ws (lower_unit c) = is_ws c.
Proof.
  destruct (lower_unit_cases c) as [-> | [-> Hr]]; [reflexivity |].
  transitivity false; [| symmetry]; apply is_ws_false; lia.
Qed.

Lemma lower_unit_eqb (k c : N) :
  (k < 65)%N -> N.eqb k (lower_unit c) = N.eqb k c.
Proof.
  intros Hk.
  destruct (lower_unit_cases c) as [-> | [-> Hr]]; [reflexivity |].
  transitivity false; [| symmetry]; apply N.eqb_neq; lia.
Qed.

Lemma lower_unit_plain (c : N) : plain (lower_unit c) = plain c.
Proof.
  unfold plain. rewrite lower_unit_ws. f_equal. f_equal.
  rewrite !(N.eqb_sym _ at_sign). apply lower_unit_eqb. reflexivity.
Qed.

(** *** Derivatives compute the language *)

Lemma lang_cat_inv (r1 r2 : regex) (s : jsstring) :
  lang (Cat r1 r2) s ->
  exists s1 s2, s = s1 ++ s2 /\ lang r1 s1 /\ lang r2 s2.
Proof. intros H. inversion H; subst. eauto. Qed.

Lemma lang_alt_inv (r1 r2 : regex) (s : jsstring) :
  lang (Alt r1 r2) s -> lang r1 s \/ lang r2 s.
Proof. intros H. inversion H; subst; auto. Qed.

Lemma lang_class_inv (p : N -> bool) (s : jsstring) :
  lang (Class p) s -> exists c, s = [c] /\ p c = true.
Proof. intros H. inversion H; subst. eauto. Qed.

Lemma lang_eps_inv (s : jsstring) : lang Eps s -> s = [].
Proof. intros H. inversion H; subst. reflexivity. Qed.

Lemma nullable_lang (r : regex) : nullable r = true <-> lang r [].
Proof.
  induction r as [| | p | r1 IH1 r2 IH2 | r1 IH1 r2 IH2 | r1 IH1]; simpl.
  - split; [discriminate | intros H; inversion H].
  - split; [constructor | reflexivity].
  - split; [discriminate | intros H; inversion H].
  - rewrite andb_true_iff, IH1, IH2. split.
    + intros [H1 H2]. exact (lang_cat _ _ [] [] H1 H2).
    + intros H. apply lang_cat_inv in H as (s1 & s2 & Heq & H1 & H2).
      symmetry in Heq. apply app_eq_nil in Heq as [-> ->]. auto.
  - rewrite orb_true_iff, IH1, IH2. split.
    + intros [H | H]; [apply lang_alt_l | apply lang_alt_r]; exact H.
    + apply lang_alt_inv.
  - split; [constructor | reflexivity].
Qed.

(** A non-empty word of [r*] starts with a non-empty word of [r]. *)
Lemma lang_star_head (r : regex) (c : N) (s : jsstring) :
  lang (Star r) (c :: s) ->
  exists s1 s2, s = s1 ++ s2 /\ lang r (c :: s1) /\ lang (Star r) s2.
Proof.
  intros H. remember (Star r) as r' eqn:Hr. remember (c :: s) as w eqn:Hw.
  revert s Hw.
  induction H as [| | | | | | r0 s1 s2 H1 _ H2 IH2]; try discriminate.
  intros s Hw. injection Hr as ->.
  destruct s1 as [| c1 s1]; simpl in Hw.
  - apply IH2; [reflexivity | exact Hw].
  - injection Hw as -> <-. exists s1, s2. auto.
Qed.

Lemma deriv_lang (c : N) (r : regex) (s : jsstring) :
  lang (deriv c r) s <-> lang r (c :: s).
Proof.
  revert s.
  induction r as [| | p | r1 IH1 r2 IH2 | r1 IH1 r2 IH2 | r1 IH1];
    intros s; simpl.
  - split; intros H; inversion H.
  - split; intros H; inversion H.
  - destruct (p c) eqn:Hp; split; intros H.
    + apply lang_eps_inv in H as ->. now constructor.
    + apply lang_class_inv in H as (c' & Heq & _).
      injection Heq as _ ->. constructor.
    + inversion H.
    + apply lang_class_inv in H as (c' & Heq & Hc).
      injection Heq as -> _. congruence.
  - assert (Hhead : lang (Cat (deriv c r1) r2) s ->
                    lang (Cat r1 r2) (c :: s)).
    { intros H. apply lang_cat_inv in H as (s1 & s2 & -> & H1 & H2).
      apply IH1 in H1. exact (lang_cat _ _ (c :: s1) s2 H1 H2). }
    assert (Hsplit : lang (Cat r1 r2) (c :: s) ->
              lang (Cat (deriv c r1) r2) s \/
              (lang r1 [] /\ lang (deriv c r2) s)).
    { intros H. apply lang_cat_inv in H as (s1 & s2 & Heq & H1 & H2).
      destruct s1 as [| c1 s1]; simpl in Heq.
      - right. subst s2. split; [exact H1 | now apply IH2].
      - injection Heq as -> ->. left.
        constructor; [now apply IH1 | exact H2]. }
    destruct (nullable r1) eqn:Hn.
    + split.
      * intros H. apply lang_alt_inv in H as [H | H]; [now apply Hhead |].
        apply nullable_lang in Hn.
        apply (lang_cat _ _ [] (c :: s) Hn). now apply IH2.
      * intros H. destruct (Hsplit H) as [Hl | [_ Hr]];
          [now apply lang_alt_l | now apply lang_alt_r].
    + split; [exact Hhead |].
      intros H. destruct (Hsplit H) as [Hl | [Hnil _]]; [exact Hl |].
      apply nullable_lang in Hnil. congruence.
  - split; intros H; apply lang_alt_inv in H as [H | H].
    + apply lang_alt_l. now apply IH1.
    + apply lang_alt_r. now apply IH2.
    + apply lang_alt_l. now apply IH1.
    + apply lang_alt_r. now apply IH2.
  - split.
    + intros H. apply lang_cat_inv in H as (s1 & s2 & -> & H1 & H2).
      apply IH1 in H1. exact (lang_star_cons _ (c :: s1) s2 H1 H2).
    + intros H. apply lang_star_head in H as (s1 & s2 & -> & H1 & H2).
      constructor; [now apply IH1 | exact H2].
Qed.

Lemma re_test_lang (r : regex) (s : jsstring) :
  re_test r s = true <-> lang r s.
Proof.
  revert r. induction s as [| c s IH]; intros r; simpl.
  - apply nullable_lang.
  - rewrite IH. apply deriv_lang.
Qed.

End PatternFacts.

(** ** The e-mail pattern *)

Section EmailFacts.

Import ContactForm.

Lemma lang_star_class (p : N -> bool) (s : jsstring) :
  lang (Star (Class p)) s <-> Forall (fun c => p c = true) s.
Proof.
  split.
  - intros H. remember (Star (Class p)) as r eqn:Hr.
    induction H as [| | | | | | r0 s1 s2 H1 _ H2 IH2]; try discriminate.
    + constructor.
    + injection Hr as ->.
      apply lang_class_inv in H1 as (c & -> & Hc).
      constructor; [exact Hc | now apply IH2].
  - induction 1 as [| c s Hc _ IH].
    + constructor.
    + apply (lang_star_cons _ [c] s); [now constructor | exact IH].
Qed.

Lemma lang_plus_class (p : N -> bool) (s : jsstring) :
  lang (Plus (Class p)) s <-> s <> [] /\ Forall (fun c => p c = true) s.
Proof.
  unfold Plus. split.
  - intros H. apply lang_cat_inv in H as (s1 & s2 & -> & H1 & H2).
    apply lang_class_inv in H1 as (c & -> & Hc).
    apply lang_star_class in H2. split; [discriminate |].
    constructor; assumption.
  - intros [Hne Hall]. destruct Hall as [| c s Hc Hall]; [contradiction |].
    apply (lang_cat _ _ [c] s); [now constructor |].
    now apply lang_star_class.
Qed.

Lemma lang_chr (k : N) (s : jsstring) : lang (Chr k) s <-> s = [k].
Proof.
  unfold Chr. split.
  - intros H. apply lang_class_inv in H as (c & -> & Hc).
    apply N.eqb_eq in Hc. now subst.
  - intros ->. constructor. apply N.eqb_refl.
Qed.

(** The words of the pattern: three non-empty runs of plain code units,
    separated by "@" and ".". *)
Lemma lang_emailRe (s : jsstring) :
  lang emailRe s <->
  exists l d t : jsstring,
    s = l ++ at_sign :: d ++ full_stop :: t /\
    l <> [] /\ d <> [] /\ t <> [] /\
    Forall (fun c => plain c = true) l /\
    Forall (fun c => plain c = true) d /\
    Forall (fun c => plain c = true) t.
Proof.
  unfold emailRe. split.
  - intros H.
    apply lang_cat_inv in H as (l & s1 & -> & Hl & H).
    apply lang_cat_inv in H as (a & s2 & -> & Ha & H).
    apply lang_cat_inv in H as (d & s3 & -> & Hd & H).
    apply lang_cat_inv in H as (b & t & -> & Hb & Ht).
    apply lang_chr in Ha as ->. apply lang_chr in Hb as ->.
    apply lang_plus_class in Hl as [? ?].
    apply lang_plus_class in Hd as [? ?].
    apply lang_plus_class in Ht as [? ?].
    exists l, d, t. simpl. auto 10.
  - intros (l & d & t & -> & Hl & Hd & Ht & Fl & Fd & Ft).
    apply lang_cat; [now apply lang_plus_class |].
    apply (lang_cat _ _ [at_sign]); [now apply lang_chr |].
    apply lang_cat; [now apply lang_plus_class |].
    apply (lang_cat _ _ [full_stop]); [now apply lang_chr |].
    now apply lang_plus_class.
Qed.

(** *** Lower-casing does not change the verdict *)

Lemma nullable_deriv_respect (f : N -> N) (c : N) (r : regex) :
  classes_respect f r ->
  deriv (f c) r = deriv c r /\ classes_respect f (deriv c r).
Proof.
  induction r as [| | p | r1 IH1 r2 IH2 | r1 IH1 r2 IH2 | r1 IH1]; simpl;
    intros Hr.
  - auto.
  - auto.
  - rewrite Hr. destruct (p c); simpl; auto.
  - destruct Hr as [Hr1 Hr2].
    destruct (IH1 Hr1) as [-> ?], (IH2 Hr2) as [-> ?].
    destruct (nullable r1); simpl; auto.
  - destruct Hr as [Hr1 Hr2].
    destruct (IH1 Hr1) as [-> ?], (IH2 Hr2) as [-> ?]. simpl; auto.
  - destruct (IH1 Hr) as [-> ?]. simpl; auto.
Qed.

Lemma re_test_map (f : N -> N) (r : regex) (s : jsstring) :
  classes_respect f r -> re_test r (map f s) = re_test r s.
Proof.
  revert r. induction s as [| c s IH]; intros r Hr; simpl.
  - reflexivity.
  - destruct (nullable_deriv_respect f c r Hr) as [-> Hr'].
    now apply IH.
Qed.

Lemma emailRe_respects_lower : classes_respect lower_unit emailRe.
Proof.
  assert (Ha : forall c, N.eqb at_sign (lower_unit c) = N.eqb at_sign c)
    by (intros c; now apply lower_unit_eqb).
  assert (Hd : forall c, N.eqb full_stop (lower_unit c) = N.eqb full_stop c)
    by (intros c; now apply lower_unit_eqb).
  pose proof lower_unit_plain as Hp.
  unfold emailRe, Plus, Chr; simpl. tauto.
Qed.

Lemma validateEmail_lang (s : jsstring) :
  validateEmail s = true <-> lang emailRe s.
Proof.
  unfold validateEmail, toLowerCase. rewrite or_else_nil.
  rewrite re_test_map by exact emailRe_respects_lower.
  apply re_test_lang.
Qed.

(** *** Any case conversion gives the same verdict *)

Lemma distinguished_false (c : N) :
  distinguished c = false <->
  is_ws c = false /\ c <> at_sign /\ c <> full_stop.
Proof.
  unfold distinguished. rewrite !orb_false_iff, !N.eqb_neq. tauto.
Qed.

Lemma distinguished_plain (c : N) :
  plain c = true <-> distinguished c = false \/ c = full_stop.
Proof.
  unfold plain. rewrite andb_true_iff, !negb_true_iff, N.eqb_neq.
  rewrite distinguished_false. split.
  - intros [Hw Ha]. destruct (N.eq_dec c full_stop); auto.
  - intros [(Hw & Ha & _) | ->]; [auto |]. split; [reflexivity | discriminate].
Qed.

Lemma cc_app (s1 s2 s' : jsstring) :
  case_converted (s1 ++ s2) s' ->
  exists s1' s2', s' = s1' ++ s2' /\
                  case_converted s1 s1' /\ case_converted s2 s2'.
Proof.
  revert s'. induction s1 as [| c s1 IH]; intros s' H; simpl in H.
  - exists [], s'. split_and!; [reflexivity | constructor | exact H].
  - inversion H as [| c0 s0 s0' Hd Hc | c0 b s0 s0' Hd Hb Hall Hc]; subst.
    + destruct (IH _ Hc) as (s1' & s2' & -> & H1 & H2).
      exists (c :: s1'), s2'. split_and!; [reflexivity | | exact H2].
      now constructor.
    + destruct (IH _ Hc) as (s1' & s2' & -> & H1 & H2).
      exists (b ++ s1'), s2'. split_and!; [| | exact H2].
      * now rewrite app_assoc.
      * now constructor.
Qed.

Lemma cc_head_kept (c : N) (s s' : jsstring) :
  distinguished c = true ->
  case_converted (c :: s) s' ->
  exists s'', s' = c :: s'' /\ case_converted s s''.
Proof.
  intros Hd H.
  inversion H as [| c0 s0 s0' _ Hc | c0 b s0 s0' Hd' _ _ _]; subst.
  - eauto.
  - congruence.
Qed.

(** A run without the distinguished unit [c] in front of a word that
    contains [c] lies before that [c]. *)
Lemma run_before (b x u v : jsstring) (c : N) :
  c ∉ b -> b ++ x = u ++ c :: v ->
  exists r, u = b ++ r /\ x = r ++ c :: v.
Proof.
  revert u. induction b as [| y b IH]; intros u Hn Heq; simpl in Heq.
  - exists u. auto.
  - apply not_elem_of_cons in Hn as [Hne Hn].
    destruct u as [| z u]; simpl in Heq.
    + injection Heq as -> _. congruence.
    + injection Heq as -> Heq. destruct (IH u Hn Heq) as (r & -> & ->).
      exists r. auto.
Qed.

Lemma cc_split_at (c : N) (s u' v' : jsstring) :
  distinguished c = true ->
  case_converted s (u' ++ c :: v') ->
  exists u v, s = u ++ c :: v /\
              case_converted u u' /\ case_converted v v'.
Proof.
  intros Hd H. remember (u' ++ c :: v') as w eqn:Hw. revert u' Hw.
  induction H as [| c0 s0 s0' Hd0 Hc IH | c0 b s0 s0' Hd0 Hb Hall Hc IH];
    intros u' Hw.
  - destruct u'; discriminate.
  - destruct u' as [| z u']; simpl in Hw.
    + injection Hw as -> ->. exists [], s0. split_and!; auto. constructor.
    + injection Hw as -> Hw. destruct (IH u' Hw) as (u & v & -> & Hu & Hv).
      exists (z :: u), v. split_and!; auto. now constructor.
  - assert (Hn : c ∉ b).
    { intros Hin. rewrite Forall_forall in Hall. apply Hall in Hin.
      congruence. }
    destruct (run_before b s0' u' v' c Hn Hw) as (r & -> & Hr).
    destruct (IH r Hr) as (u & v & -> & Hu & Hv).
    exists (c0 :: u), v. split_and!; auto. now constructor.
Qed.

Lemma cc_plain (s s' : jsstring) :
  case_converted s s' ->
  (Forall (fun c => plain c = true) s <-> Forall (fun c => plain c = true) s')
  /\ (s = [] <-> s' = []).
Proof.
  induction 1 as [| c s s' Hd Hc [IHp IHn] | c b s s' Hd Hb Hall Hc [IHp IHn]].
  - tauto.
  - rewrite !Forall_cons, IHp. split; [tauto | split; discriminate].
  - rewrite Forall_cons, Forall_app, IHp. split.
    + assert (Hc' : plain c = true) by (apply distinguished_plain; auto).
      assert (Hb' : Forall (fun x => plain x = true) b).
      { eapply Forall_impl; [exact Hall |]. intros x Hx.
        apply distinguished_plain. auto. }
      tauto.
    + split; [discriminate |]. intros Heq.
      apply app_eq_nil in Heq as [-> _]. contradiction.
Qed.

Lemma at_sign_distinguished : distinguished at_sign = true.
Proof. reflexivity. Qed.

Lemma full_stop_distinguished : distinguished full_stop = true.
Proof. reflexivity. Qed.

Lemma lang_emailRe_case_converted (s s' : jsstring) :
  case_converted s s' -> (lang emailRe s <-> lang emailRe s').
Proof.
  intros H. rewrite !lang_emailRe. split.
  - intros (l & d & t & -> & Hl & Hd & Ht & Fl & Fd & Ft).
    apply cc_app in H as (l' & r1 & -> & Cl & H).
    apply (cc_head_kept _ _ _ at_sign_distinguished) in H as (r2 & -> & H).
    apply cc_app in H as (d' & r3 & -> & Cd & H).
    apply (cc_head_kept _ _ _ full_stop_distinguished) in H as (t' & -> & Ct).
    destruct (cc_plain _ _ Cl) as [Pl Nl], (cc_plain _ _ Cd) as [Pd Nd],
             (cc_plain _ _ Ct) as [Pt Nt].
    exists l', d', t'. tauto.
  - intros (l' & d' & t' & -> & Hl & Hd & Ht & Fl & Fd & Ft).
    apply (cc_split_at _ _ _ _ at_sign_distinguished) in H
      as (l & r & -> & Cl & H).
    apply (cc_split_at _ _ _ _ full_stop_distinguished) in H
      as (d & t & -> & Cd & Ct).
    destruct (cc_plain _ _ Cl) as [Pl Nl], (cc_plain _ _ Cd) as [Pd Nd],
             (cc_plain _ _ Ct) as [Pt Nt].
    exists l, d, t. tauto.
Qed.

Lemma toLowerCase_case_converted (s : jsstring) :
  case_converted s (toLowerCase s).
Proof.
  induction s as [| c s IH]; simpl; [constructor |].
  destruct (distinguished c) eqn:Hd.
  - assert (Hc : lower_unit c = c).
    { destruct (lower_unit_cases c) as [Hc | [_ Hr]]; [exact Hc |].
      exfalso. unfold distinguished in Hd.
      rewrite !orb_true_iff, is_ws_spec, !N.eqb_eq in Hd.
      unfold at_sign, full_stop in Hd. lia. }
    rewrite Hc. now constructor.
  - apply (cc_map c [lower_unit c] s (toLowerCase s));
      [exact Hd | discriminate | | exact IH].
    constructor; [| constructor].
    apply distinguished_false in Hd as (Hw & Ha & Hf).
    apply distinguished_false. rewrite lower_unit_ws.
    split; [exact Hw |].
    unfold at_sign, full_stop in *.
    destruct (lower_unit_cases c) as [-> | [-> Hr]]; lia.
Qed.

(** Whatever function stands for [toLowerCase], as long as it is a case
    conversion in the above sense, the validator gives the verdict of
    [validateEmail]. *)
Lemma validateEmail_any_case_conversion (lower : jsstring -> jsstring) :
  (forall s, case_converted s (lower s)) ->
  forall email, re_test emailRe (lower (or_else email [])) = validateEmail email.
Proof.
  intros Hlower email.
  apply eq_true_iff_eq.
  rewrite validateEmail_lang, re_test_lang, or_else_nil.
  symmetry. apply lang_emailRe_case_converted, Hlower.
Qed.

(** *** The accepted shape *)

Lemma plain_spec (c : N) :
  plain c = true <-> is_ws c = false /\ c <> at_sign.
Proof.
  unfold plain. rewrite andb_true_iff, !negb_true_iff, N.eqb_neq. tauto.
Qed.

Lemma Forall_plain (s : jsstring) :
  Forall (fun c => plain c = true) s <->
  Forall (fun c => is_ws c = false) s /\ at_sign ∉ s.
Proof.
  induction s as [| c s IH].
  - split; [intros _; split; [constructor | apply not_elem_of_nil] |
            constructor].
  - rewrite !Forall_cons, IH, plain_spec, not_elem_of_cons. intuition congruence.
Qed.

Lemma email_shape_words (s : jsstring) :
  email_shape s <->
  exists l d t : jsstring,
    s = l ++ at_sign :: d ++ full_stop :: t /\
    l <> [] /\ d <> [] /\ t <> [] /\
    Forall (fun c => plain c = true) l /\
    Forall (fun c => plain c = true) d /\
    Forall (fun c => plain c = true) t.
Proof.
  unfold email_shape. split.
  - intros (Hws & l & r & -> & Hal & Har & Hl & d & t & -> & Hd & Ht).
    exists l, d, t.
    apply Forall_app in Hws as [Wl Wr]. apply Forall_cons in Wr as [_ Wr].
    apply Forall_app in Wr as [Wd Wt]. apply Forall_cons in Wt as [_ Wt].
    rewrite not_elem_of_app, not_elem_of_cons in Har.
    destruct Har as (Had & _ & Hat).
    rewrite !Forall_plain. auto 12.
  - intros (l & d & t & -> & Hl & Hd & Ht & Fl & Fd & Ft).
    apply Forall_plain in Fl as [Wl Al], Fd as [Wd Ad], Ft as [Wt At].
    split.
    + apply Forall_app; split; [exact Wl |].
      constructor; [reflexivity |].
      apply Forall_app; split; [exact Wd |].
      constructor; [reflexivity | exact Wt].
    + exists l, (d ++ full_stop :: t). split_and!; try done.
      * rewrite not_elem_of_app, not_elem_of_cons. split_and!; try done.
      * exists d, t. auto.
Qed.

(** C5, as amended: [validateEmail] accepts a string iff it has no white
    space, exactly one "@" with text before it, and after the "@" a "."
    with text on both of its sides (between the "@" and the "." and after
    the "."); in particular a string without "@" is rejected. *)
Theorem validateEmail_accepts_shape (s : jsstring) :
  (validateEmail s = true <-> email_shape s) /\
  (at_sign ∉ s -> validateEmail s = false).
Proof.
  assert (Hiff : validateEmail s = true <-> email_shape s).
  { rewrite validateEmail_lang, lang_emailRe. symmetry.
    apply email_shape_words. }
  split; [exact Hiff |].
  intros Hno. apply not_true_is_false. intros Hv.
  apply Hiff in Hv as (_ & l & r & -> & _). apply Hno.
  rewrite elem_of_app, elem_of_cons. auto.
Qed.

Lemma validateEmail_accepts_shape_witness :
  email_shape (js "ann@example.org") /\
  validateEmail (js "ann.example.org") = false.
Proof.
  split.
  - apply (proj1 (validateEmail_accepts_shape (js "ann@example.org"))).
    vm_compute. reflexivity.
  - apply (proj2 (validateEmail_accepts_shape (js "ann.example.org"))).
    apply (bool_decide_unpack _). vm_compute. exact I.
Defined.

(** C5, as stated, fails on "a@.com": one "@" with text on both sides, a
    "." after it with text after it, no white space, and yet rejected,
    because nothing stands between the "@" and the ".". *)
Lemma validateEmail_dot_after_at_counterexample :
  email_shape_spec (js "a@.com") /\ validateEmail (js "a@.com") = false.
Proof.
  split; [| vm_compute; reflexivity].
  split.
  - repeat constructor.
  - exists (js "a"), (js ".com"). split_and!; try done.
    + vm_compute. intros H. inversion H as [| ? ? ? H']; subst. inversion H'.
    + vm_compute. intros H. repeat (inversion H as [| ? ? ? H']; subst; clear H; rename H' into H).
    + exists [], (js "com"). split; [reflexivity | discriminate].
Qed.

End EmailFacts.

(** ** Contact form *)

Section ContactFormFacts.

Import ContactForm.

Lemma message_rule_fails (m : jsstring) :
  negb (truthy m) || (length m <? 10) = negb (10 <=? length m).
Proof.
  destruct m as [| c m]; [reflexivity |]. cbn [truthy negb orb].
  destruct (Nat.ltb_spec (length (c :: m)) 10),
           (Nat.leb_spec 10 (length (c :: m))); simpl; try reflexivity; lia.
Qed.

(** The rules in order: which rule is the first to fail. *)
Lemma first_failing_order (d : Data) :
  first_failing rule_order d =
  if negb (truthy (name d)) then Some NameRule
  else if negb (validateEmail (email d)) then Some EmailRule
  else if negb (10 <=? length (message d)) then Some MessageRule
  else None.
Proof.
  unfold rule_order, first_failing, rule_ok.
  destruct (truthy (name d)), (validateEmail (email d)),
           (10 <=? length (message d)); reflexivity.
Qed.

Lemma submit_failure (p : Page) (r0 : Response) (r : Rule) :
  formResponse p = Some r0 ->
  first_failing rule_order (readData (form p)) = Some r ->
  submit p =
  setResponse (Some {| textContent := rule_message r; color := errorColor |}) p.
Proof.
  intros Hr. rewrite first_failing_order. unfold submit. rewrite Hr.
  cbn [form setResponse]. rewrite message_rule_fails.
  destruct (negb (truthy (name (readData (form p))))).
  { intros [= <-]. reflexivity. }
  destruct (negb (validateEmail (email (readData (form p))))).
  { intros [= <-]. reflexivity. }
  destruct (negb (10 <=? length (message (readData (form p))))).
  { intros [= <-]. reflexivity. }
  discriminate.
Qed.

Lemma submit_success (p : Page) (r0 : Response) :
  formResponse p = Some r0 ->
  first_failing rule_order (readData (form p)) = None ->
  submit p =
  setTimeout ConfirmAndReset sendDelay
    (setResponse
       (Some {| textContent := sendingText;
                color := or_else (accent600 p) defaultAccent |}) p).
Proof.
  intros Hr. rewrite first_failing_order. unfold submit. rewrite Hr.
  cbn [form setResponse]. rewrite message_rule_fails.
  destruct (negb (truthy (name (readData (form p))))); [discriminate |].
  destruct (negb (validateEmail (email (readData (form p)))));
    [discriminate |].
  destruct (negb (10 <=? length (message (readData (form p)))));
    [discriminate |].
  reflexivity.
Qed.

(** C3: with the response element present, the handler reports the
    message of the first rule that fails in the order name, e-mail,
    message length, and that message alone; an empty name yields the name
    error whatever the e-mail and the message are. *)
Theorem submit_reports_first_failing (p : Page) (r0 : Response) :
  formResponse p = Some r0 ->
  (forall r, first_failing rule_order (readData (form p)) = Some r ->
             showsError (rule_message r) (submit p)) /\
  (name (readData (form p)) = [] -> showsError nameError (submit p)) /\
  (name (readData (form p)) <> [] ->
   validateEmail (email (readData (form p))) = false ->
   showsError emailError (submit p)) /\
  (name (readData (form p)) <> [] ->
   validateEmail (email (readData (form p))) = true ->
   length (message (readData (form p))) < 10 ->
   showsError messageError (submit p)).
Proof.
  intros Hr.
  assert (Hall : forall r,
            first_failing rule_order (readData (form p)) = Some r ->
            showsError (rule_message r) (submit p)).
  { intros r Hf. rewrite (submit_failure p r0 r Hr Hf). reflexivity. }
  split; [exact Hall |].
  split_and!.
  - intros Hn. apply (Hall NameRule).
    rewrite first_failing_order, Hn. reflexivity.
  - intros Hn He. apply (Hall EmailRule).
    rewrite first_failing_order, He.
    apply truthy_nonempty in Hn. now rewrite Hn.
  - intros Hn He Hm. apply (Hall MessageRule).
    rewrite first_failing_order, He.
    apply truthy_nonempty in Hn. rewrite Hn.
    destruct (Nat.leb_spec 10 (length (message (readData (form p)))));
      [lia | reflexivity].
Qed.

Lemma submit_reports_first_failing_witness :
  showsError nameError
    (submit (filled (js "  ") (js "not an address") (js "short"))).
Proof.
  refine (proj1 (proj2 (submit_reports_first_failing
                          (filled (js "  ") (js "not an address") (js "short"))
                          {| textContent := []; color := [] |} _)) _);
    reflexivity.
Defined.

(** C4: with a non-empty name and a valid e-mail, a trimmed message of 9
    code units is rejected with the length error and nothing is
    scheduled; a trimmed message of 10 code units passes: the sending
    text is shown and the confirmation is scheduled. *)
Theorem submit_message_length_boundary (p : Page) (r0 : Response) :
  formResponse p = Some r0 ->
  name (readData (form p)) <> [] ->
  validateEmail (email (readData (form p))) = true ->
  (length (message (readData (form p))) = 9 ->
   showsError messageError (submit p) /\
   timeouts (submit p) = timeouts p) /\
  (length (message (readData (form p))) = 10 ->
   formResponse (submit p) =
     Some {| textContent := sendingText;
             color := or_else (accent600 p) defaultAccent |} /\
   timeouts (submit p) =
     timeouts p ++ [((now p + sendDelay)%N, ConfirmAndReset)]).
Proof.
  intros Hr Hn He. apply truthy_nonempty in Hn. split; intros Hm.
  - assert (Hf : first_failing rule_order (readData (form p))
                 = Some MessageRule).
    { rewrite first_failing_order, Hn, He, Hm. reflexivity. }
    rewrite (submit_failure p r0 _ Hr Hf). split; reflexivity.
  - assert (Hf : first_failing rule_order (readData (form p)) = None).
    { rewrite first_failing_order, Hn, He, Hm. reflexivity. }
    rewrite (submit_success p r0 Hr Hf). split; reflexivity.
Qed.

Lemma submit_message_length_boundary_witness :
  (showsError messageError
     (submit (filled (js "Ann") (js "ann@example.org") (js " 123456789 "))) /\
   timeouts (submit (filled (js "Ann") (js "ann@example.org") (js " 123456789 ")))
     = []) /\
  (formResponse
     (submit (filled (js "Ann") (js "ann@example.org") (js "1234567890")))
     = Some {| textContent := sendingText; color := defaultAccent |} /\
   timeouts (submit (filled (js "Ann") (js "ann@example.org") (js "1234567890")))
     = [(900%N, ConfirmAndReset)]).
Proof.
  split.
  - refine (proj1 (submit_message_length_boundary
                     (filled (js "Ann") (js "ann@example.org") (js " 123456789 "))
                     {| textContent := []; color := [] |} _ _ _) _);
      vm_compute; try reflexivity; discriminate.
  - refine (proj2 (submit_message_length_boundary
                     (filled (js "Ann") (js "ann@example.org") (js "1234567890"))
                     {| textContent := []; color := [] |} _ _ _) _);
      vm_compute; try reflexivity; discriminate.
Defined.

(** *** The simulated send *)

Lemma advance_idle (dt : N) (q : Page) :
  timeouts q = [] ->
  advance dt q =
  {| form := form q; formResponse := formResponse q;
     accent600 := accent600 q; now := (now q + dt)%N; timeouts := [] |}.
Proof. intros H. unfold advance. rewrite H. reflexivity. Qed.

Lemma advance_before_due (dt due : N) (cb : Callback) (q : Page) :
  timeouts q = [(due, cb)] ->
  (now q + dt < due)%N ->
  advance dt q =
  {| form := form q; formResponse := formResponse q;
     accent600 := accent600 q; now := (now q + dt)%N;
     timeouts := [(due, cb)] |}.
Proof.
  intros H Hlt. unfold advance. rewrite H.
  rewrite !filter_cons, !filter_nil. cbn [fst].
  destruct (decide (due <= now q + dt)%N) as [Hle | _]; [lia |].
  destruct (decide (¬ (due <= now q + dt)%N)) as [_ | Hn]; [| lia].
  reflexivity.
Qed.

Lemma advance_after_due (dt due : N) (cb : Callback) (q : Page) :
  timeouts q = [(due, cb)] ->
  (due <= now q + dt)%N ->
  advance dt q =
  runCallback cb
    {| form := form q; formResponse := formResponse q;
       accent600 := accent600 q; now := (now q + dt)%N; timeouts := [] |}.
Proof.
  intros H Hle. unfold advance. rewrite H.
  rewrite !filter_cons, !filter_nil. cbn [fst].
  destruct (decide (due <= now q + dt)%N) as [_ | Hn]; [| lia].
  destruct (decide (¬ (due <= now q + dt)%N)) as [Hn | _]; [lia |].
  reflexivity.
Qed.

Lemma reset_idempotent (f : Form) : reset (reset f) = reset f.
Proof.
  destruct f as [[n |] [e |] [m |]]; reflexivity.
Qed.

(** After [form.reset()] every control holds its default value, and keeps
    that default. *)
Lemma reset_fields (f : Form) :
  fieldValue (nameField (reset f)) = fieldDefault (nameField f) /\
  fieldValue (emailField (reset f)) = fieldDefault (emailField f) /\
  fieldValue (messageField (reset f)) = fieldDefault (messageField f).
Proof.
  destruct f as [[n |] [e |] [m |]]; split_and!; reflexivity.
Qed.

(** Whatever confirmations run, the fields are as before or reset, and the
    colour of the response stays. *)
Lemma callbacks_effect (l : list (N * Callback)) (q : Page) (r : Response) :
  formResponse q = Some r ->
  exists txt,
    formResponse (foldl (fun q' e => runCallback e.2 q') q l)
    = Some {| textContent := txt; color := color r |} /\
    (form (foldl (fun q' e => runCallback e.2 q') q l) = form q \/
     form (foldl (fun q' e => runCallback e.2 q') q l) = reset (form q)).
Proof.
  revert q r. induction l as [| [due cb] l IH]; intros q r Hr; simpl.
  - exists (textContent r). destruct r. auto.
  - destruct cb.
    destruct (IH (runCallback ConfirmAndReset q)
                {| textContent := thanksText; color := color r |})
      as (txt & Ht & Hf).
    { simpl. now rewrite Hr. }
    exists txt. split; [exact Ht |]. right.
    destruct Hf as [-> | ->]; simpl; [reflexivity | apply reset_idempotent].
Qed.

Lemma callbacks_form (l : list (N * Callback)) (q1 q2 : Page) :
  form q1 = form q2 ->
  form (foldl (fun q' e => runCallback e.2 q') q1 l)
  = form (foldl (fun q' e => runCallback e.2 q') q2 l).
Proof.
  revert q1 q2. induction l as [| [due cb] l IH]; intros q1 q2 He; simpl.
  - exact He.
  - apply IH. destruct cb. simpl. now rewrite He.
Qed.

(** A change of the response alone makes no difference to what later
    happens to the fields. *)
Lemma advance_form_setResponse (dt : N) (r : option Response) (p : Page) :
  form (advance dt (setResponse r p)) = form (advance dt p).
Proof. unfold advance. cbn [timeouts now setResponse]. now apply callbacks_form. Qed.

(** Once the delay is over, the confirmation a successful submit has
    scheduled has run, whatever else was pending. *)
Lemma advance_confirms (dt : N) (p : Page) (r : Response) :
  (sendDelay <= dt)%N ->
  form (advance dt (setTimeout ConfirmAndReset sendDelay
                      (setResponse (Some r) p))) = reset (form p) /\
  formResponse (advance dt (setTimeout ConfirmAndReset sendDelay
                              (setResponse (Some r) p)))
  = Some {| textContent := thanksText; color := color r |}.
Proof.
  intros Hdt. unfold advance.
  cbn [timeouts now form formResponse accent600 setTimeout setResponse].
  rewrite !filter_app, !filter_cons, !filter_nil. cbn [fst].
  destruct (decide (now p + sendDelay <= now p + dt)%N) as [_ | Hn]; [| lia].
  destruct (decide (¬ (now p + sendDelay <= now p + dt)%N)) as [Hn | _];
    [lia |].
  rewrite foldl_app. cbn [foldl snd].
  match goal with
  | |- context [foldl ?f ?q ?l] =>
      destruct (callbacks_effect l q r eq_refl) as (txt & Ht & Hf);
      set (qq := foldl f q l) in *
  end.
  cbn [form] in Hf. unfold runCallback. cbn [form formResponse].
  rewrite Ht. cbn [color]. split; [| reflexivity].
  destruct Hf as [-> | ->]; [reflexivity | apply reset_idempotent].
Qed.

(** C8: with the response element present, a failed validation changes
    nothing but the text and colour of the response: the fields stay, and
    the submit adds nothing to what later happens to them.  A successful
    one leaves the fields as they are while the sending text shows, and
    once the fixed delay of 900 ms has passed the confirmation text is
    shown and every field holds its default value again. *)
Theorem submit_resets_only_after_success (p : Page) (r0 : Response) :
  formResponse p = Some r0 ->
  (forall r,
     first_failing rule_order (readData (form p)) = Some r ->
     submit p =
       setResponse
         (Some {| textContent := rule_message r; color := errorColor |}) p /\
     form (submit p) = form p /\
     timeouts (submit p) = timeouts p /\
     (forall dt, form (advance dt (submit p)) = form (advance dt p)) /\
     (timeouts p = [] -> forall dt, form (advance dt (submit p)) = form p)) /\
  (first_failing rule_order (readData (form p)) = None ->
   form (submit p) = form p /\
   timeouts (submit p) =
     timeouts p ++ [((now p + sendDelay)%N, ConfirmAndReset)] /\
   (timeouts p = [] -> forall dt, (dt < sendDelay)%N ->
      form (advance dt (submit p)) = form p /\
      formResponse (advance dt (submit p)) =
        Some {| textContent := sendingText;
                color := or_else (accent600 p) defaultAccent |}) /\
   (forall dt, (sendDelay <= dt)%N ->
      form (advance dt (submit p)) = reset (form p) /\
      fieldValue (nameField (form (advance dt (submit p))))
        = fieldDefault (nameField (form p)) /\
      fieldValue (emailField (form (advance dt (submit p))))
        = fieldDefault (emailField (form p)) /\
      fieldValue (messageField (form (advance dt (submit p))))
        = fieldDefault (messageField (form p)) /\
      formResponse (advance dt (submit p)) =
        Some {| textContent := thanksText;
                color := or_else (accent600 p) defaultAccent |})).
Proof.
  intros Hr. split.
  - intros r Hf. rewrite (submit_failure p r0 r Hr Hf).
    split_and!; try reflexivity.
    + intros dt. apply advance_form_setResponse.
    + intros Hp dt. rewrite advance_idle by exact Hp. reflexivity.
  - intros Hf. rewrite (submit_success p r0 Hr Hf).
    split_and!; try reflexivity.
    + intros Hp dt Hdt.
      rewrite (advance_before_due dt (now p + sendDelay) ConfirmAndReset).
      * split; reflexivity.
      * cbn [timeouts setTimeout setResponse]. rewrite Hp. reflexivity.
      * cbn [now setTimeout setResponse]. lia.
    + intros dt Hdt.
      destruct (advance_confirms dt p
                  {| textContent := sendingText;
                     color := or_else (accent600 p) defaultAccent |} Hdt)
        as [Hform Hresp].
      destruct (reset_fields (form p)) as (Hn & He & Hm).
      rewrite Hform. split_and!; try assumption. reflexivity.
Qed.

Lemma submit_resets_only_after_success_witness :
  form (advance 900 (submit (filled (js "Ann") (js "ann@example.org")
                               (js "1234567890"))))
    = form (filled [] [] []) /\
  fieldValue (nameField (form (advance 900
      (submit (filled (js "Ann") (js "ann@example.org") (js "1234567890"))))))
    = Some [] /\
  fieldValue (emailField (form (advance 900
      (submit (filled (js "Ann") (js "ann@example.org") (js "1234567890"))))))
    = Some [] /\
  fieldValue (messageField (form (advance 900
      (submit (filled (js "Ann") (js "ann@example.org") (js "1234567890"))))))
    = Some [] /\
  formResponse (advance 900 (submit (filled (js "Ann") (js "ann@example.org")
                                       (js "1234567890"))))
    = Some {| textContent := thanksText; color := defaultAccent |}.
Proof.
  refine (proj2 (proj2 (proj2
            (proj2 (submit_resets_only_after_success
                      (filled (js "Ann") (js "ann@example.org")
                         (js "1234567890"))
                      {| textContent := []; color := [] |} _) _))) 900%N _);
    vm_compute; try reflexivity; discriminate.
Defined.

End ContactFormFacts.

(** ** Reveal on scroll *)

Section RevealFacts.

Import Reveal.

Lemma onEntry_visible (e : nat) (st : State) (ent : Entry) :
  e ∈ visible (onEntry st ent) <->
  e ∈ visible st \/ (target ent = e /\ isIntersecting ent = true).
Proof.
  unfold onEntry. destruct (isIntersecting ent); simpl.
  - rewrite elem_of_union, elem_of_singleton. intuition congruence.
  - intuition congruence.
Qed.

Lemma onEntry_observed (e : nat) (st : State) (ent : Entry) :
  e ∈ observed (onEntry st ent) <->
  e ∈ observed st /\ ~ (target ent = e /\ isIntersecting ent = true).
Proof.
  unfold onEntry. destruct (isIntersecting ent); simpl.
  - rewrite elem_of_difference, elem_of_singleton. split.
    + intros [Ho Hne]. split; [exact Ho |]. intros [Heq _]. now apply Hne.
    + intros [Ho Hn]. split; [exact Ho |]. intros ->. now apply Hn.
  - split; [intros Ho; split; [exact Ho |]; intros [_ Hf]; discriminate
           | tauto].
Qed.

Lemma callback_visible (e : nat) (es : list Entry) (st : State) :
  e ∈ visible (callback es st) <->
  e ∈ visible st \/
  exists ent, ent ∈ es /\ target ent = e /\ isIntersecting ent = true.
Proof.
  unfold callback. revert st.
  induction es as [| ent es IH]; intros st; simpl.
  - split; [auto | intros [H | (ent & Hin & _)]; [exact H |]].
    now apply elem_of_nil in Hin.
  - rewrite IH, onEntry_visible. split.
    + intros [[H | H] | (x & Hin & Hx)]; [auto | right | right].
      * exists ent. split; [apply list_elem_of_here | exact H].
      * exists x. split; [now apply list_elem_of_further | exact Hx].
    + intros [H | (x & Hin & Hx)]; [auto |].
      apply elem_of_cons in Hin as [-> | Hin]; [auto |].
      right. eauto.
Qed.

Lemma callback_observed (e : nat) (es : list Entry) (st : State) :
  e ∈ observed (callback es st) <->
  e ∈ observed st /\
  ~ exists ent, ent ∈ es /\ target ent = e /\ isIntersecting ent = true.
Proof.
  unfold callback. revert st.
  induction es as [| ent es IH]; intros st; simpl.
  - split; [intros H; split; [exact H |] | tauto].
    intros (ent & Hin & _). now apply elem_of_nil in Hin.
  - rewrite IH, onEntry_observed. split.
    + intros [[Ho Hn] Hne]. split; [exact Ho |].
      intros (x & Hin & Hx).
      apply elem_of_cons in Hin as [-> | Hin]; [tauto |].
      apply Hne. eauto.
    + intros [Ho Hne]. split_and!; [exact Ho | |].
      * intros Hx. apply Hne. exists ent.
        split; [apply list_elem_of_here | exact Hx].
      * intros (x & Hin & Hx). apply Hne. exists x.
        split; [now apply list_elem_of_further | exact Hx].
Qed.

Lemma intersects_nil (e : nat) : ~ intersects e [].
Proof. intros (es & ent & Hin & _). now apply elem_of_nil in Hin. Qed.

Lemma intersects_cons (e : nat) (es : list Entry) (bs : list (list Entry)) :
  intersects e (es :: bs) <->
  (exists ent, ent ∈ es /\ target ent = e /\ isIntersecting ent = true) \/
  intersects e bs.
Proof.
  unfold intersects. split.
  - intros (es' & ent & Hin & Hx).
    apply elem_of_cons in Hin as [-> | Hin]; [left | right]; eauto.
  - intros [(ent & Hx) | (es' & ent & Hin & Hx)].
    + exists es, ent. split; [apply list_elem_of_here | exact Hx].
    + exists es', ent. split; [now apply list_elem_of_further | exact Hx].
Qed.

Lemma intersects_app (e : nat) (bs bs' : list (list Entry)) :
  intersects e bs -> intersects e (bs ++ bs').
Proof.
  intros (es & ent & Hin & Hx). exists es, ent.
  split; [apply elem_of_app; now left | exact Hx].
Qed.

Lemma run_visible (e : nat) (bs : list (list Entry)) (st : State) :
  e ∈ visible (run bs st) <-> e ∈ visible st \/ intersects e bs.
Proof.
  unfold run. revert st. induction bs as [| es bs IH]; intros st; simpl.
  - pose proof (intersects_nil e). tauto.
  - rewrite IH, callback_visible, intersects_cons. tauto.
Qed.

Lemma run_observed (e : nat) (bs : list (list Entry)) (st : State) :
  e ∈ observed (run bs st) <-> e ∈ observed st /\ ~ intersects e bs.
Proof.
  unfold run. revert st. induction bs as [| es bs IH]; intros st; simpl.
  - pose proof (intersects_nil e). tauto.
  - rewrite IH, callback_observed, intersects_cons. tauto.
Qed.

Lemma run_app (bs bs' : list (list Entry)) (st : State) :
  run (bs ++ bs') st = run bs' (run bs st).
Proof. unfold run. apply foldl_app. Qed.

Lemma hides_zero (e : nat) (bs : list (list Entry)) (st : State) :
  hides e bs st = 0.
Proof.
  revert st. induction bs as [| es bs IH]; intros st; simpl.
  - reflexivity.
  - rewrite IH.
    destruct (bool_decide (e ∈ visible st)) eqn:Hv; [| reflexivity].
    apply bool_decide_eq_true_1 in Hv.
    rewrite bool_decide_eq_false_2; [reflexivity |].
    intros Hn. apply Hn. apply callback_visible. now left.
Qed.

Lemma reveals_marked (e : nat) (bs : list (list Entry)) (st : State) :
  e ∈ visible st -> reveals e bs st = 0.
Proof.
  revert st. induction bs as [| es bs IH]; intros st Hv; simpl.
  - reflexivity.
  - rewrite IH by (apply callback_visible; now left).
    rewrite bool_decide_eq_false_2 by tauto. reflexivity.
Qed.

Lemma reveals_at_most_once (e : nat) (bs : list (list Entry)) (st : State) :
  reveals e bs st <= 1.
Proof.
  revert st. induction bs as [| es bs IH]; intros st; simpl.
  - lia.
  - destruct (bool_decide (e ∈ visible (callback es st))) eqn:Hv.
    + apply bool_decide_eq_true_1 in Hv.
      rewrite (reveals_marked e bs _ Hv).
      destruct (bool_decide (e ∉ visible st)); simpl; lia.
    + rewrite andb_false_r. simpl. apply IH.
Qed.

(** C9: along any sequence of observer callbacks, an element goes from
    unmarked to marked at most once and never back; a marked element
    stays marked; an element reported as intersecting is marked and no
    longer observed, and stays so through any later batches, which do not
    trigger the transition again; an unmarked element never reported as
    intersecting stays unmarked. *)
Theorem reveal_once_and_permanent
    (e : nat) (bs : list (list Entry)) (st : State) :
  reveals e bs st <= 1 /\
  hides e bs st = 0 /\
  (e ∈ visible st -> e ∈ visible (run bs st)) /\
  (intersects e bs ->
   forall later,
     (e ∈ visible (run (bs ++ later) st)) /\
     (e ∉ observed (run (bs ++ later) st)) /\
     reveals e later (run bs st) = 0) /\
  (e ∉ visible st -> ~ intersects e bs -> e ∉ visible (run bs st)).
Proof.
  split_and!.
  - apply reveals_at_most_once.
  - apply hides_zero.
  - intros Hv. apply run_visible. now left.
  - intros Hi later. split_and!.
    + apply run_visible. right. now apply intersects_app.
    + rewrite run_observed. intros [_ Hn]. apply Hn.
      now apply intersects_app.
    + apply reveals_marked. apply run_visible. now right.
  - intros Hv Hn. rewrite run_visible. tauto.
Qed.

Lemma reveal_once_and_permanent_witness :
  reveals 1 sample_batches sample_state = 1 /\
  ((1 ∈ visible (run (take 2 sample_batches ++ drop 2 sample_batches)
                   sample_state)) /\
   (1 ∉ observed (run (take 2 sample_batches ++ drop 2 sample_batches)
                    sample_state)) /\
   reveals 1 (drop 2 sample_batches) (run (take 2 sample_batches) sample_state)
     = 0) /\
  2 ∉ visible (run sample_batches sample_state).
Proof.
  split; [vm_compute; reflexivity |]. split.
  - refine (proj1 (proj2 (proj2 (proj2
              (reveal_once_and_permanent 1 (take 2 sample_batches)
                 sample_state)))) _ (drop 2 sample_batches)).
    exists [ {| target := 1; isIntersecting := true |} ],
           {| target := 1; isIntersecting := true |}.
    split_and!; try reflexivity.
    + simpl. apply list_elem_of_further, list_elem_of_here.
    + apply list_elem_of_here.
  - refine (proj2 (proj2 (proj2 (proj2
              (reveal_once_and_permanent 2 sample_batches sample_state))))
              _ _).
    + vm_compute. intros H. discriminate.
    + intros (es & ent & Hes & Hent & Ht & Hi).
      unfold sample_batches in Hes.
      repeat (apply elem_of_cons in Hes as [-> | Hes]);
        [ | | | now apply elem_of_nil in Hes ];
        repeat (apply elem_of_cons in Hent as [-> | Hent]);
        try (now apply elem_of_nil in Hent); simpl in *; congruence.
Defined.

End RevealFacts.

(** ** Testimonial carousel: how the operations compose *)

Section CarouselSteps.

Import Carousel.
Local Open Scope Z_scope.

Lemma showIdx_items (i : Z) (st : State) :
  length (items (showIdx i st)) = length (items st).
Proof.
  unfold showIdx. destruct (length (items st) =? 0)%nat; simpl;
    [reflexivity | apply length_map].
Qed.

(** X1: the state after [showIdx i] does not depend on what an earlier
    [showIdx j] wrote; in particular [showIdx i] twice is [showIdx i]
    once. *)
Theorem showIdx_last_call_wins (i j : Z) (st : State) :
  showIdx i (showIdx j st) = showIdx i st.
Proof.
  destruct (Nat.eqb_spec (length (items st)) 0) as [H0 | H0].
  - apply nil_length_inv in H0. now rewrite (showIdx_empty j st H0).
  - pose proof (showIdx_itemCount j st) as Hc.
    pose proof (showIdx_items j st) as Hl.
    destruct (showIdx_timers j st) as (Ht & Hts & Hn & Hp & Hx).
    unfold showIdx at 1 3. rewrite Hl, Hc.
    destruct (Nat.eqb_spec (length (items st)) 0) as [H0' | _];
      [contradiction |].
    rewrite Ht, Hts, Hn, Hp, Hx. f_equal.
    unfold showIdx. destruct (length (items st) =? 0)%nat; simpl;
      [reflexivity |].
    rewrite map_map. reflexivity.
Qed.

Lemma click_next_idx (st : State) :
  hasNext st = true -> idx_in_range st ->
  idx (handle (Click NextBtn) st) = (idx st + 1) mod itemCount st.
Proof.
  unfold idx_in_range. intros Hn Hr. simpl. rewrite Hn.
  apply showIdx_idx_mod; lia.
Qed.

Lemma click_prev_idx (st : State) :
  hasPrev st = true -> idx_in_range st ->
  idx (handle (Click PrevBtn) st) = (idx st - 1) mod itemCount st.
Proof.
  unfold idx_in_range. intros Hn Hr. simpl. rewrite Hn.
  apply showIdx_idx_mod; lia.
Qed.

Lemma handle_itemCount (ev : Event) (st : State) :
  itemCount (handle ev st) = itemCount st.
Proof.
  destruct ev as [[ | | ] | c | c | h]; simpl;
    repeat match goal with
           | |- context [if ?b then _ else _] => destruct b
           end;
    try reflexivity; apply showIdx_itemCount.
Qed.

(** X2: k clicks on "next" move the index k places forward around the
    ring, k clicks on "previous" k places backward; so N clicks either way
    come back to the item shown. *)
Theorem clicks_move_around_ring (k : nat) (st : State) :
  hasPrev st = true -> hasNext st = true -> idx_in_range st ->
  idx (run (replicate k (Click NextBtn)) st)
    = (idx st + Z.of_nat k) mod itemCount st /\
  idx (run (replicate k (Click PrevBtn)) st)
    = (idx st - Z.of_nat k) mod itemCount st.
Proof.
  revert st. induction k as [| k IH]; intros st Hp Hn Hr.
  - simpl. unfold idx_in_range in Hr.
    rewrite Z.add_0_r, Z.sub_0_r, Z.mod_small by lia. auto.
  - assert (Hpos : 0 < itemCount st) by (unfold idx_in_range in Hr; lia).
    split.
    + change (run (replicate (S k) (Click NextBtn)) st)
        with (run (replicate k (Click NextBtn)) (handle (Click NextBtn) st)).
      destruct (handle_buttons (Click NextBtn) st) as [Hp' Hn'].
      destruct (IH (handle (Click NextBtn) st)) as [-> _].
      * now rewrite Hp'.
      * now rewrite Hn'.
      * now apply handle_idx_in_range.
      * rewrite handle_itemCount, click_next_idx by assumption.
        rewrite Z.add_mod_idemp_l by lia. f_equal. lia.
    + change (run (replicate (S k) (Click PrevBtn)) st)
        with (run (replicate k (Click PrevBtn)) (handle (Click PrevBtn) st)).
      destruct (handle_buttons (Click PrevBtn) st) as [Hp' Hn'].
      destruct (IH (handle (Click PrevBtn) st)) as [_ ->].
      * now rewrite Hp'.
      * now rewrite Hn'.
      * now apply handle_idx_in_range.
      * rewrite handle_itemCount, click_prev_idx by assumption.
        rewrite Zminus_mod_idemp_l. f_equal. lia.
Qed.

Lemma clicks_move_around_ring_witness :
  idx (run (replicate 3 (Click NextBtn)) three_items)
    = (idx three_items + Z.of_nat 3) mod itemCount three_items /\
  idx (run (replicate 3 (Click PrevBtn)) three_items)
    = (idx three_items - Z.of_nat 3) mod itemCount three_items.
Proof.
  apply (clicks_move_around_ring 3 three_items);
    vm_compute; try reflexivity; split; [discriminate | reflexivity].
Defined.

(** X3: "next" then "previous", and "previous" then "next", show the item
    that was shown before. *)
Theorem next_prev_round_trip (st : State) :
  hasPrev st = true -> hasNext st = true -> idx_in_range st ->
  idx (run [Click NextBtn; Click PrevBtn] st) = idx st /\
  idx (run [Click PrevBtn; Click NextBtn] st) = idx st.
Proof.
  intros Hp Hn Hr.
  assert (Hpos : 0 < itemCount st) by (unfold idx_in_range in Hr; lia).
  destruct (handle_buttons (Click NextBtn) st) as [Hp1 Hn1].
  destruct (handle_buttons (Click PrevBtn) st) as [Hp2 Hn2].
  split; simpl run.
  - change (idx (handle (Click PrevBtn) (handle (Click NextBtn) st)) = idx st).
    rewrite click_prev_idx;
      [| now rewrite Hp1 | now apply handle_idx_in_range].
    rewrite handle_itemCount, click_next_idx by assumption.
    rewrite Zminus_mod_idemp_l.
    replace (idx st + 1 - 1) with (idx st) by lia.
    apply Z.mod_small. exact Hr.
  - change (idx (handle (Click NextBtn) (handle (Click PrevBtn) st)) = idx st).
    rewrite click_next_idx;
      [| now rewrite Hn2 | now apply handle_idx_in_range].
    rewrite handle_itemCount, click_prev_idx by assumption.
    rewrite Z.add_mod_idemp_l by lia.
    replace (idx st - 1 + 1) with (idx st) by lia.
    apply Z.mod_small. exact Hr.
Qed.

Lemma next_prev_round_trip_witness :
  idx (run [Click NextBtn; Click PrevBtn] three_items) = idx three_items /\
  idx (run [Click PrevBtn; Click NextBtn] three_items) = idx three_items.
Proof.
  apply (next_prev_round_trip three_items);
    vm_compute; try reflexivity; split; [discriminate | reflexivity].
Defined.

(** X4: on a carousel without items no event ever changes the index, the
    item list or the style of the track. *)
Theorem empty_carousel_is_inert (evs : list Event) (st : State) :
  items st = [] ->
  idx (run evs st) = idx st /\
  items (run evs st) = [] /\
  trackStyle (run evs st) = trackStyle st.
Proof.
  revert st. induction evs as [| ev evs IH]; intros st He; simpl.
  - auto.
  - assert (Hs : forall i, showIdx i st = st)
      by (intros i; now apply showIdx_empty).
    assert (Hh : idx (handle ev st) = idx st /\
                 items (handle ev st) = [] /\
                 trackStyle (handle ev st) = trackStyle st).
    { destruct ev as [[ | | ] | c | c | h]; simpl; rewrite ?Hs;
        repeat match goal with
               | |- context [if ?b then _ else _] => destruct b
               end; simpl; auto. }
    destruct Hh as (Hi & Hit & Hst).
    destruct (IH (handle ev st) Hit) as (-> & -> & ->). auto.
Qed.

Lemma empty_carousel_is_inert_witness :
  idx (run [Click NextBtn; Tick 1; MouseLeave Track] (init [] true true)) = 0 /\
  items (run [Click NextBtn; Tick 1; MouseLeave Track] (init [] true true))
    = [] /\
  trackStyle (run [Click NextBtn; Tick 1; MouseLeave Track] (init [] true true))
    = trackStyle (init [] true true).
Proof.
  apply (empty_carousel_is_inert [Click NextBtn; Tick 1; MouseLeave Track]
           (init [] true true)).
  reflexivity.
Defined.

(** X5: from page load on, under every sequence of clicks, hover events
    and timer ticks, the index addresses an item. *)
Theorem page_load_keeps_idx_in_range
    (evs : list Event) (its : list Item) (prev next : bool) :
  its <> [] ->
  0 <= idx (run evs (init its prev next))
    < itemCount (run evs (init its prev next)).
Proof.
  intros Hne. apply run_idx_in_range, init_idx_in_range, Hne.
Qed.

Lemma page_load_keeps_idx_in_range_witness :
  0 <= idx (run [Click PrevBtn; Tick 1; Click PrevBtn]
              (init [ {| minWidth := [] |}; {| minWidth := [] |} ] true true))
    < itemCount (run [Click PrevBtn; Tick 1; Click PrevBtn]
                   (init [ {| minWidth := [] |}; {| minWidth := [] |} ]
                      true true)).
Proof.
  apply (page_load_keeps_idx_in_range [Click PrevBtn; Tick 1; Click PrevBtn]
           [ {| minWidth := [] |}; {| minWidth := [] |} ] true true).
  discriminate.
Defined.

(** X6: a running timer that is not the tracked one is never stopped: no
    later event removes it. *)
Theorem untracked_timer_never_stops (h : nat) (evs : list Event) (st : State) :
  handles_fresh st ->
  h ∈ timers st ->
  h <> tsInterval st ->
  h ∈ timers (run evs st).
Proof.
  revert st. induction evs as [| ev evs IH]; intros st Hf Hin Hne; simpl.
  - exact Hin.
  - apply IH.
    + now apply handle_handles_fresh.
    + destruct ev as [[ | | ] | c | c | h0]; simpl;
        repeat match goal with
               | |- context [if ?b then _ else _] => destruct b
               end; simpl;
        try match goal with
            | |- context [showIdx ?i st] =>
                destruct (showIdx_timers i st) as (-> & _)
            end;
        try exact Hin.
      * apply elem_of_difference. split; [exact Hin |].
        rewrite elem_of_singleton. exact Hne.
      * apply elem_of_union. now left.
    + assert (Hlt : (h < nextHandle st)%nat) by now apply Hf.
      destruct ev as [[ | | ] | c | c | h0]; simpl;
        repeat match goal with
               | |- context [if ?b then _ else _] => destruct b
               end; simpl;
        try match goal with
            | |- context [showIdx ?i st] =>
                destruct (showIdx_timers i st) as (_ & -> & _)
            end;
        try exact Hne.
      lia.
Qed.

Lemma untracked_timer_never_stops_witness :
  2%nat ∈ timers (run [MouseEnter Track; Click NextBtn; MouseLeave NextBtn]
                    (run [MouseEnter Track; MouseLeave Track; MouseLeave Track]
                       three_items)).
Proof.
  apply (untracked_timer_never_stops 2
           [MouseEnter Track; Click NextBtn; MouseLeave NextBtn]
           (run [MouseEnter Track; MouseLeave Track; MouseLeave Track]
              three_items)).
  - intros h Hh.
    assert (Ht : timers (run [MouseEnter Track; MouseLeave Track;
                              MouseLeave Track] three_items)
                 = {[ 2%nat; 3%nat ]}) by (vm_compute; reflexivity).
    assert (Hn : nextHandle (run [MouseEnter Track; MouseLeave Track;
                                  MouseLeave Track] three_items) = 4%nat)
      by (vm_compute; reflexivity).
    rewrite Ht in Hh. rewrite Hn.
    apply elem_of_union in Hh as [Hh | Hh]; apply elem_of_singleton in Hh; lia.
  - apply (bool_decide_unpack _). vm_compute. exact I.
  - vm_compute. discriminate.
Defined.

End CarouselSteps.

(** ** Theme manager: frame, composition and reload *)

Section ThemeSteps.

Import Theme.

Lemma class_swap (C : gset jsstring) (a b : jsstring) :
  a <> b ->
  ((C ∪ {[ a ]}) ∖ {[ b ]} ∪ {[ b ]}) ∖ {[ a ]} = (C ∪ {[ b ]}) ∖ {[ a ]}.
Proof.
  intros Hne. apply set_eq. intros x.
  rewrite !elem_of_difference, !elem_of_union, !elem_of_difference,
    !elem_of_union, !elem_of_singleton.
  destruct (decide (x = a)) as [Hxa | Hxa];
    destruct (decide (x = b)) as [Hxb | Hxb]; subst; tauto.
Qed.

Lemma class_again (C : gset jsstring) (a b : jsstring) :
  ((C ∪ {[ a ]}) ∖ {[ b ]} ∪ {[ a ]}) ∖ {[ b ]} = (C ∪ {[ a ]}) ∖ {[ b ]}.
Proof.
  apply set_eq. intros x.
  rewrite !elem_of_difference, !elem_of_union, !elem_of_difference,
    !elem_of_union, !elem_of_singleton. tauto.
Qed.

(** X8: [applyTheme m2] after [applyTheme m1] gives the page that
    [applyTheme m2] alone gives: class list, storage and icon keep no
    trace of the earlier mode. *)
Theorem applyTheme_last_call_wins (m1 m2 : jsstring) (p : Page) :
  applyTheme m2 (applyTheme m1 p) = applyTheme m2 p.
Proof.
  pose proof theme_classes_differ as Hne.
  assert (Hne' : theme_light <> theme_dark) by (intros H; now apply Hne).
  unfold applyTheme at 1 3. cbn [matchMedia].
  f_equal.
  - unfold applyTheme; cbn [bodyClasses].
    destruct (decide (m1 = dark)), (decide (m2 = dark));
      auto using class_swap, class_again.
  - unfold applyTheme, setItem; cbn [localStorage].
    destruct (writable (localStorage p)) eqn:Hw; cbn [writable entries readable].
    + rewrite insert_insert_eq. reflexivity.
    + rewrite Hw. reflexivity.
  - unfold applyTheme; cbn [darkToggle].
    destruct (darkToggle p); reflexivity.
Qed.

(** X9: [applyTheme] touches nothing but the two theme classes, the theme
    key and the icon: every other class of the body and every other
    storage entry is as before. *)
Theorem applyTheme_frame (mode : jsstring) (p : Page) :
  (forall c, c <> theme_dark -> c <> theme_light ->
             (c ∈ bodyClasses (applyTheme mode p) <-> c ∈ bodyClasses p)) /\
  (forall k, k <> themeKey ->
             entries (localStorage (applyTheme mode p)) !! k
             = entries (localStorage p) !! k) /\
  readable (localStorage (applyTheme mode p)) = readable (localStorage p) /\
  writable (localStorage (applyTheme mode p)) = writable (localStorage p) /\
  matchMedia (applyTheme mode p) = matchMedia p.
Proof.
  split_and!.
  - intros c Hd Hl. unfold applyTheme; cbn [bodyClasses].
    destruct (decide (mode = dark));
      rewrite elem_of_difference, elem_of_union, !elem_of_singleton; tauto.
  - intros k Hk. unfold applyTheme, setItem; cbn [localStorage].
    destruct (writable (localStorage p)); cbn [entries]; [| reflexivity].
    apply lookup_insert_ne. congruence.
  - unfold applyTheme, setItem; cbn [localStorage].
    destruct (writable (localStorage p)); reflexivity.
  - unfold applyTheme, setItem; cbn [localStorage].
    destruct (writable (localStorage p)) eqn:Hw; [reflexivity | exact Hw].
  - reflexivity.
Qed.

(** Every path of the initialisation ends in [applyTheme] of a non-empty
    mode. *)
Lemma initTheme_applies (p : Page) :
  exists m, m <> [] /\ initTheme p = applyTheme m p.
Proof.
  unfold initTheme.
  destruct (stored p) as [[| c s] |].
  - destruct (prefersDark p); eexists; (split; [| reflexivity]); discriminate.
  - eexists; (split; [| reflexivity]); discriminate.
  - destruct (prefersDark p); eexists; (split; [| reflexivity]); discriminate.
Qed.

Lemma toggleClick_applies (p : Page) :
  is_Some (darkToggle p) ->
  exists m, m <> [] /\ toggleClick p = applyTheme m p.
Proof.
  intros [x Hx]. unfold toggleClick. rewrite Hx.
  destruct (bool_decide (theme_dark ∈ bodyClasses p));
    eexists; (split; [| reflexivity]); discriminate.
Qed.

Lemma icon_of_mode (mode : jsstring) (p : Page) :
  is_Some (darkToggle p) ->
  darkToggle (applyTheme mode p)
  = Some (if decide (mode = dark) then sunIcon else moonIcon).
Proof. intros [x Hx]. unfold applyTheme; cbn [darkToggle]. now rewrite Hx. Qed.

Lemma toggles_keep_button (n : nat) (p : Page) :
  is_Some (darkToggle p) -> is_Some (darkToggle (Nat.iter n toggleClick p)).
Proof.
  intros Hk. induction n as [| n IH]; simpl; [exact Hk |].
  destruct (toggleClick_applies _ IH) as (m & _ & ->).
  now apply applyTheme_darkToggle.
Qed.

(** X10: after the initialisation and any number of clicks on the toggle,
    the body carries exactly one of the two theme classes, and the button
    shows the sun when the theme is dark and the moon when it is light. *)
Theorem theme_and_icon_stay_consistent (n : nat) (p : Page) :
  exists t,
    displayed (Nat.iter n toggleClick (initTheme p)) = Some t /\
    (is_Some (darkToggle p) ->
     darkToggle (Nat.iter n toggleClick (initTheme p))
     = Some (match t with Dark => sunIcon | Light => moonIcon end)).
Proof.
  destruct (initTheme_applies p) as (m0 & _ & Hinit).
  assert (Hstep : forall q m,
            exists t, displayed (applyTheme m q) = Some t /\
                      (is_Some (darkToggle q) ->
                       darkToggle (applyTheme m q)
                       = Some (match t with
                               | Dark => sunIcon | Light => moonIcon end))).
  { intros q m. rewrite applyTheme_displayed.
    destruct (decide (m = dark)) as [Hd | Hd]; eexists; (split; [reflexivity |]);
      intros Hk; rewrite (icon_of_mode m q Hk).
    - now rewrite decide_True.
    - now rewrite decide_False. }
  destruct n as [| n].
  - simpl. rewrite Hinit. apply Hstep.
  - rewrite Nat.iter_succ.
    destruct (darkToggle p) as [x |] eqn:Hx.
    + assert (Hk : is_Some (darkToggle (Nat.iter n toggleClick (initTheme p)))).
      { apply toggles_keep_button. rewrite Hinit.
        apply applyTheme_darkToggle. rewrite Hx. eauto. }
      destruct (toggleClick_applies _ Hk) as (m & _ & ->).
      destruct (Hstep (Nat.iter n toggleClick (initTheme p)) m) as (t & Ht & Hi).
      exists t. split; [exact Ht |]. intros _. now apply Hi.
    + assert (Hno : forall k, Nat.iter k toggleClick (initTheme p) = initTheme p).
      { assert (H0 : darkToggle (initTheme p) = None).
        { rewrite Hinit. unfold applyTheme; cbn [darkToggle]. now rewrite Hx. }
        induction k as [| k IHk]; simpl; [reflexivity |].
        rewrite IHk. unfold toggleClick. now rewrite H0. }
      pose proof (Hno 1) as H1. rewrite Nat.iter_succ in H1. cbn [Nat.iter nat_rect] in H1.
      rewrite (Hno n), H1, Hinit.
      destruct (Hstep p m0) as (t & Ht & _).
      exists t. split; [exact Ht |]. intros [y Hy]. discriminate.
Qed.

(** X11: n clicks on the toggle show the original theme when n is even and
    the opposite one when n is odd. *)
Theorem toggles_parity (n : nat) (p : Page) (t : theme) :
  is_Some (darkToggle p) ->
  displayed p = Some t ->
  displayed (Nat.iter n toggleClick p)
  = Some (if Nat.even n then t else opposite t).
Proof.
  intros Hk Ht. induction n as [| n IH].
  - exact Ht.
  - rewrite Nat.iter_succ.
    rewrite (toggleClick_displayed _ _ (toggles_keep_button n p Hk) IH).
    rewrite Nat.even_succ, <- Nat.negb_even.
    destruct (Nat.even n), t; reflexivity.
Qed.

Lemma toggles_parity_witness :
  displayed (Nat.iter 3 toggleClick corrupted_page_loaded)
  = Some (if Nat.even 3 then Light else opposite Light).
Proof.
  apply (toggles_parity 3 corrupted_page_loaded Light).
  - vm_compute. eauto.
  - vm_compute. reflexivity.
Defined.

(** X12: the theme survives a reload.  When a page whose storage accepts
    writes has been initialised or toggled, any later page load that can
    read the same storage displays the same theme, whatever the system
    preference is by then. *)
Theorem theme_survives_reload (p p' : Page) :
  writable (localStorage p) = true ->
  readable (localStorage p') = true ->
  (entries (localStorage p') = entries (localStorage (initTheme p)) ->
   displayed (initTheme p') = displayed (initTheme p)) /\
  (is_Some (darkToggle p) ->
   entries (localStorage p') = entries (localStorage (toggleClick p)) ->
   displayed (initTheme p') = displayed (toggleClick p)).
Proof.
  intros Hw Hr.
  assert (Hgen : forall m, m <> [] ->
            entries (localStorage p') = entries (localStorage (applyTheme m p)) ->
            displayed (initTheme p') = displayed (applyTheme m p)).
  { intros m Hm He.
    assert (Hs : stored p' = Some m).
    { unfold stored, getItem. rewrite Hr, He.
      now apply applyTheme_persisted. }
    rewrite (stored_nonempty p' m Hs Hm). now rewrite !applyTheme_displayed. }
  split.
  - destruct (initTheme_applies p) as (m & Hm & ->). now apply Hgen.
  - intros Hk. destruct (toggleClick_applies p Hk) as (m & Hm & ->).
    now apply Hgen.
Qed.

Lemma theme_survives_reload_witness :
  displayed (initTheme (reloaded (toggleClick corrupted_page_loaded)))
  = displayed (toggleClick corrupted_page_loaded).
Proof.
  refine (proj2 (theme_survives_reload corrupted_page_loaded
                   (reloaded (toggleClick corrupted_page_loaded)) _ _) _ _).
  - reflexivity.
  - reflexivity.
  - vm_compute. eauto.
  - vm_compute. reflexivity.
Defined.

End ThemeSteps.

(** ** Contact form: field reading and the pending confirmation *)

Section ContactFormSteps.

Import ContactForm.

Lemma trimStart_blank (s : jsstring) :
  Forall (fun c => is_ws c = true) s -> trimStart s = [].
Proof. induction 1 as [| c s Hc _ IH]; simpl; [| rewrite Hc]; auto. Qed.

Lemma trimStart_skips (a s : jsstring) :
  Forall (fun c => is_ws c = true) a -> trimStart (a ++ s) = trimStart s.
Proof. induction 1 as [| c a Hc _ IH]; simpl; [| rewrite Hc]; auto. Qed.

Lemma trimEnd_skips (s b : jsstring) :
  Forall (fun c => is_ws c = true) b -> trimEnd (s ++ b) = trimEnd s.
Proof.
  intros Hb. unfold trimEnd. rewrite rev_app_distr.
  rewrite trimStart_skips; [reflexivity |].
  apply Forall_forall. intros c Hc. rewrite Forall_forall in Hb.
  apply Hb. apply list_elem_of_In, in_rev. now apply list_elem_of_In.
Qed.

Lemma trim_blank (s : jsstring) :
  Forall (fun c => is_ws c = true) s -> trim s = [].
Proof. intros H. unfold trim. now rewrite trimStart_blank. Qed.

Lemma trim_padding (a v b : jsstring) :
  Forall (fun c => is_ws c = true) a ->
  Forall (fun c => is_ws c = true) b ->
  trim (a ++ v ++ b) = trim v.
Proof.
  intros Ha Hb. unfold trim. rewrite trimStart_skips by exact Ha.
  induction v as [| c v IH]; simpl.
  - now rewrite trimStart_blank.
  - destruct (is_ws c); [exact IH |].
    now apply (trimEnd_skips (c :: v) b).
Qed.

Lemma fieldText_trim (ctl : Control) :
  fieldText (Some ctl) = trim (value ctl).
Proof. simpl. destruct (value ctl); reflexivity. Qed.

(** X13: what the handler reads from a field ignores white space around
    the value: padding a value with white space on either side changes
    nothing, a value of white space only reads as empty, and so does a
    missing control. *)
Theorem fieldText_ignores_padding (a v b d d' : jsstring) :
  Forall (fun c => is_ws c = true) a ->
  Forall (fun c => is_ws c = true) b ->
  fieldText (Some {| value := a ++ v ++ b; defaultValue := d |})
    = fieldText (Some {| value := v; defaultValue := d' |}) /\
  fieldText (Some {| value := a; defaultValue := d |}) = [] /\
  fieldText None = [].
Proof.
  intros Ha Hb. rewrite !fieldText_trim. cbn [value]. split_and!.
  - now apply trim_padding.
  - now apply trim_blank.
  - reflexivity.
Qed.

Lemma fieldText_ignores_padding_witness :
  fieldText (Some {| value := js " " ++ js "Ann Lee" ++ [9; 160]%N;
                     defaultValue := [] |})
    = fieldText (Some {| value := js "Ann Lee"; defaultValue := js "x" |}) /\
  fieldText (Some {| value := js " "; defaultValue := [] |}) = [] /\
  fieldText None = [].
Proof.
  apply (fieldText_ignores_padding (js " ") (js "Ann Lee") [9; 160]%N
           [] (js "x")); repeat constructor.
Defined.

(** X14: a submit whose name control is missing or holds white space only
    is answered with the name error, whatever the other fields hold. *)
Theorem blank_name_is_rejected (p : Page) (r0 : Response) :
  formResponse p = Some r0 ->
  (nameField (form p) = None \/
   exists ctl, nameField (form p) = Some ctl /\
               Forall (fun c => is_ws c = true) (value ctl)) ->
  showsError nameError (submit p).
Proof.
  intros Hr Hn.
  assert (He : name (readData (form p)) = []).
  { unfold readData; cbn [name].
    destruct Hn as [-> | (ctl & -> & Hws)]; [reflexivity |].
    rewrite fieldText_trim. now apply trim_blank. }
  rewrite (submit_failure p r0 NameRule Hr).
  - reflexivity.
  - rewrite first_failing_order, He. reflexivity.
Qed.

Lemma blank_name_is_rejected_witness :
  showsError nameError
    (submit (filled [9; 32; 160]%N (js "ann@example.org") (js "1234567890"))).
Proof.
  apply (blank_name_is_rejected
           (filled [9; 32; 160]%N (js "ann@example.org") (js "1234567890"))
           {| textContent := []; color := [] |}).
  - reflexivity.
  - right. eexists. split; [reflexivity |]. repeat constructor.
Defined.

(** X15: the submit handler itself never changes a field, the clock or
    the accent colour, and never cancels a pending confirmation: the
    timeouts it leaves are the earlier ones, followed by at most one new
    confirmation due 900 ms later. *)
Theorem submit_only_appends (p : Page) :
  form (submit p) = form p /\
  accent600 (submit p) = accent600 p /\
  now (submit p) = now p /\
  (timeouts (submit p) = timeouts p \/
   timeouts (submit p)
   = timeouts p ++ [((now p + sendDelay)%N, ConfirmAndReset)]).
Proof.
  destruct (formResponse p) as [r0 |] eqn:Hr.
  - destruct (first_failing rule_order (readData (form p))) as [r |] eqn:Hf.
    + rewrite (submit_failure p r0 r Hr Hf). auto.
    + rewrite (submit_success p r0 Hr Hf). auto.
  - unfold submit. rewrite Hr. auto.
Qed.

(** X16: a rejected submit does not stop a confirmation that is pending.
    When a valid submit is followed, before the 900 ms are over, by an
    edited form that fails validation, the delay still ends with the thanks
    text, now shown in the error colour, and with every edited field back
    at its default value. *)
Theorem late_error_is_overwritten
    (p : Page) (r0 : Response) (f' : Form) (r : Rule) (dt1 dt2 : N) :
  formResponse p = Some r0 ->
  timeouts p = [] ->
  first_failing rule_order (readData (form p)) = None ->
  first_failing rule_order (readData f') = Some r ->
  (dt1 < sendDelay)%N ->
  (sendDelay <= dt1 + dt2)%N ->
  formResponse (advance dt2 (submit (edit f' (advance dt1 (submit p)))))
    = Some {| textContent := thanksText; color := errorColor |} /\
  form (advance dt2 (submit (edit f' (advance dt1 (submit p))))) = reset f' /\
  fieldValue (nameField
                (form (advance dt2 (submit (edit f' (advance dt1 (submit p)))))))
    = fieldDefault (nameField f') /\
  fieldValue (emailField
                (form (advance dt2 (submit (edit f' (advance dt1 (submit p)))))))
    = fieldDefault (emailField f') /\
  fieldValue (messageField
                (form (advance dt2 (submit (edit f' (advance dt1 (submit p)))))))
    = fieldDefault (messageField f').
Proof.
  intros Hr Hp Hok Hbad H1 H2.
  rewrite (submit_success p r0 Hr Hok).
  rewrite (advance_before_due dt1 (now p + sendDelay) ConfirmAndReset);
    [| cbn [timeouts setTimeout setResponse]; now rewrite Hp
     | cbn [now setTimeout setResponse]; lia].
  cbn [form formResponse accent600 now setTimeout setResponse].
  match goal with |- context [submit ?q] =>
    rewrite (submit_failure q
               {| textContent := sendingText;
                  color := or_else (accent600 p) defaultAccent |} r);
      [| reflexivity | exact Hbad]
  end.
  rewrite (advance_after_due dt2 (now p + sendDelay) ConfirmAndReset);
    [| reflexivity | cbn [now setResponse edit]; lia].
  destruct (reset_fields f') as (Hn & He & Hm).
  split_and!; try reflexivity; assumption.
Qed.

Lemma late_error_is_overwritten_witness :
  formResponse
    (advance 600
       (submit (edit (form (filled (js " ") (js "oops") (js "hi")))
                  (advance 300
                     (submit (filled (js "Ann") (js "ann@example.org")
                                (js "1234567890")))))))
    = Some {| textContent := thanksText; color := errorColor |} /\
  form
    (advance 600
       (submit (edit (form (filled (js " ") (js "oops") (js "hi")))
                  (advance 300
                     (submit (filled (js "Ann") (js "ann@example.org")
                                (js "1234567890")))))))
    = form (filled [] [] []) /\
  fieldValue (nameField (form
    (advance 600
       (submit (edit (form (filled (js " ") (js "oops") (js "hi")))
                  (advance 300
                     (submit (filled (js "Ann") (js "ann@example.org")
                                (js "1234567890")))))))))
    = Some [] /\
  fieldValue (emailField (form
    (advance 600
       (submit (edit (form (filled (js " ") (js "oops") (js "hi")))
                  (advance 300
                     (submit (filled (js "Ann") (js "ann@example.org")
                                (js "1234567890")))))))))
    = Some [] /\
  fieldValue (messageField (form
    (advance 600
       (submit (edit (form (filled (js " ") (js "oops") (js "hi")))
                  (advance 300
                     (submit (filled (js "Ann") (js "ann@example.org")
                                (js "1234567890")))))))))
    = Some [].
Proof.
  refine (late_error_is_overwritten
            (filled (js "Ann") (js "ann@example.org") (js "1234567890"))
            {| textContent := []; color := [] |}
            (form (filled (js " ") (js "oops") (js "hi"))) NameRule 300 600
            _ _ _ _ _ _);
    vm_compute; try reflexivity; discriminate.
Defined.

Lemma count_at_plain (s : jsstring) :
  Forall (fun c => plain c = true) s -> filter (fun c => c = at_sign) s = [].
Proof.
  unfold jsstring. induction 1 as [| c s Hc _ IH]; [reflexivity |].
  rewrite filter_cons, IH. apply plain_spec in Hc as [_ Hc].
  now rewrite decide_False.
Qed.

(** X17: an address that [validateEmail] accepts has at least five code
    units and exactly one "@". *)
Theorem accepted_address_size (s : jsstring) :
  validateEmail s = true -> 5 <= length s /\ count_at s = 1.
Proof.
  intros Hv. apply validateEmail_lang, lang_emailRe in Hv
    as (l & d & t & -> & Hl & Hd & Ht & Fl & Fd & Ft).
  split.
  - rewrite length_app. cbn [length]. rewrite length_app. cbn [length].
    destruct l, d, t; try contradiction; cbn [length]; lia.
  - unfold count_at, jsstring.
    rewrite filter_app, filter_cons, filter_app, filter_cons.
    rewrite !count_at_plain by assumption.
    rewrite decide_True by reflexivity.
    rewrite decide_False by discriminate. reflexivity.
Qed.

Lemma accepted_address_size_witness :
  5 <= length (js "a@b.c") /\ count_at (js "a@b.c") = 1.
Proof.
  apply (accepted_address_size (js "a@b.c")). vm_compute. reflexivity.
Defined.

End ContactFormSteps.

(** ** Reveal on scroll: what a batch does, and who is accounted for *)

Section RevealSteps.

Import Reveal.

Lemma elem_of_hits (e : nat) (es : list Entry) :
  e ∈ hits es <->
  exists ent, ent ∈ es /\ target ent = e /\ isIntersecting ent = true.
Proof.
  induction es as [| ent es IH]; simpl.
  - rewrite elem_of_empty. split; [tauto |].
    intros (x & Hin & _). now apply elem_of_nil in Hin.
  - destruct (isIntersecting ent) eqn:Hi.
    + rewrite elem_of_union, elem_of_singleton, IH. split.
      * intros [-> | (x & Hin & Hx)].
        -- exists ent. split; [apply list_elem_of_here | auto].
        -- exists x. split; [now apply list_elem_of_further | exact Hx].
      * intros (x & Hin & Ht & Hx).
        apply elem_of_cons in Hin as [-> | Hin]; [now left |].
        right. eauto.
    + rewrite IH. split.
      * intros (x & Hin & Hx). exists x.
        split; [now apply list_elem_of_further | exact Hx].
      * intros (x & Hin & Ht & Hx).
        apply elem_of_cons in Hin as [-> | Hin]; [congruence |]. eauto.
Qed.

Lemma state_eq (s1 s2 : State) :
  visible s1 = visible s2 -> observed s1 = observed s2 -> s1 = s2.
Proof. destruct s1, s2; simpl; intros -> ->; reflexivity. Qed.

(** X18: one run of the observer callback marks exactly the targets the
    batch reports as intersecting and stops watching exactly those; so the
    order of the entries and repeated entries make no difference. *)
Theorem callback_marks_the_hits (es es' : list Entry) (st : State) :
  callback es st
  = {| visible := visible st ∪ hits es; observed := observed st ∖ hits es |} /\
  (hits es = hits es' -> callback es st = callback es' st).
Proof.
  assert (Hform : forall l,
            callback l st
            = {| visible := visible st ∪ hits l;
                 observed := observed st ∖ hits l |}).
  { intros l. apply state_eq; cbn [visible observed]; apply set_eq; intros e.
    - rewrite callback_visible, elem_of_union, elem_of_hits. tauto.
    - rewrite callback_observed, elem_of_difference, elem_of_hits. tauto. }
  split; [apply Hform |].
  intros Heq. rewrite (Hform es), (Hform es'), Heq. reflexivity.
Qed.

Lemma callback_marks_the_hits_witness :
  callback [ {| target := 1; isIntersecting := true |};
             {| target := 2; isIntersecting := false |};
             {| target := 1; isIntersecting := true |} ] sample_state
  = callback [ {| target := 2; isIntersecting := false |};
               {| target := 1; isIntersecting := true |} ] sample_state.
Proof.
  refine (proj2 (callback_marks_the_hits _ _ sample_state) _).
  vm_compute. reflexivity.
Defined.

Lemma onEntry_accounted (e : nat) (st : State) (ent : Entry) :
  e ∈ observed st \/ e ∈ visible st ->
  e ∈ observed (onEntry st ent) \/ e ∈ visible (onEntry st ent).
Proof.
  intros H. unfold onEntry. destruct (isIntersecting ent); [| exact H].
  cbn [visible observed].
  destruct (decide (e = target ent)) as [-> | Hne].
  - right. apply elem_of_union. right. now apply elem_of_singleton.
  - destruct H as [H | H].
    + left. apply elem_of_difference. split; [exact H |].
      now rewrite elem_of_singleton.
    + right. apply elem_of_union. now left.
Qed.

Lemma run_accounted (e : nat) (bs : list (list Entry)) (st : State) :
  e ∈ observed st \/ e ∈ visible st ->
  e ∈ observed (run bs st) \/ e ∈ visible (run bs st).
Proof.
  revert st. induction bs as [| es bs IH]; intros st H; simpl; [exact H |].
  apply IH. unfold callback. clear IH. revert st H.
  induction es as [| ent es IHes]; intros st H; simpl; [exact H |].
  apply IHes. now apply onEntry_accounted.
Qed.

(** X19: from a page load on which no element is revealed yet, every
    marked element is at all times either still watched or revealed, and
    never both: none is lost, and no revealed element is watched. *)
Theorem marked_elements_accounted
    (e : nat) (marked : list nat) (bs : list (list Entry)) :
  e ∈ marked ->
  let st := run bs (observeAll marked {| visible := ∅; observed := ∅ |}) in
  (e ∈ observed st /\ e ∉ visible st) \/ (e ∈ visible st /\ e ∉ observed st).
Proof.
  intros Hm st.
  assert (Hobs : e ∈ observed
                   (observeAll marked {| visible := ∅; observed := ∅ |})).
  { cbn [observeAll observed]. apply elem_of_union. right.
    now apply elem_of_list_to_set. }
  destruct (decide (e ∈ visible st)) as [Hv | Hv].
  - right. split; [exact Hv |]. subst st.
    apply run_visible in Hv as [Hv | Hi].
    + cbn [observeAll visible] in Hv. now apply elem_of_empty in Hv.
    + rewrite run_observed. tauto.
  - left. split; [| exact Hv].
    destruct (run_accounted e bs _ (or_introl Hobs)) as [Ho | Hv'];
      [exact Ho | contradiction].
Qed.

Lemma marked_elements_accounted_witness :
  (2 ∈ observed (run sample_batches sample_state) /\
   2 ∉ visible (run sample_batches sample_state)) \/
  (2 ∈ visible (run sample_batches sample_state) /\
   2 ∉ observed (run sample_batches sample_state)).
Proof.
  apply (marked_elements_accounted 2 [1; 2; 3] sample_batches).
  apply elem_of_cons. right. apply list_elem_of_here.
Defined.

End RevealSteps.

(** ** FAQ keyboard toggle *)

Section FaqSteps.

Import Faq.

(** X20: after any sequence of key presses on a summary, its item is in
    the original state when the number of Enter and Space presses is even
    and in the other state when it is odd; no other key counts. *)
Theorem faq_toggle_parity (keys : list jsstring) (open : bool) :
  press keys open
  = if Nat.even (length (List.filter toggles keys)) then open else negb open.
Proof.
  unfold press. revert open.
  induction keys as [| key keys IH]; intros open; simpl; [reflexivity |].
  rewrite IH. unfold keydown.
  destruct (toggles key); cbn [snd length]; [| reflexivity].
  rewrite Nat.even_succ, <- Nat.negb_even.
  destruct (Nat.even (length (List.filter toggles keys))), open; reflexivity.
Qed.

End FaqSteps.

(** ** Mobile navigation and in-page links *)

Section NavSteps.

Import Nav.

Lemma missing_element (p : Page) :
  mobileNav p = None \/ hamburger p = None ->
  openMobile p = p /\ closeMobile p = p.
Proof.
  unfold openMobile, closeMobile.
  intros [H | H]; rewrite H; destruct (mobileNav p); auto.
Qed.

Lemma closeMobile_fields (p : Page) :
  querySelector (closeMobile p) = querySelector p /\
  mobileClose (closeMobile p) = mobileClose p /\
  (is_Some (hamburger (closeMobile p)) <-> is_Some (hamburger p)) /\
  (is_Some (mobileNav (closeMobile p)) <-> is_Some (mobileNav p)).
Proof.
  unfold closeMobile.
  destruct (mobileNav p) as [n |] eqn:Hn, (hamburger p) as [h |] eqn:Hh;
    cbn [querySelector mobileClose hamburger mobileNav];
    rewrite ?Hn, ?Hh; split_and!; try reflexivity;
    split; intros [x Hx]; eauto; discriminate.
Qed.

Lemma openMobile_fields (p : Page) :
  querySelector (openMobile p) = querySelector p /\
  mobileClose (openMobile p) = mobileClose p /\
  (is_Some (hamburger (openMobile p)) <-> is_Some (hamburger p)) /\
  (is_Some (mobileNav (openMobile p)) <-> is_Some (mobileNav p)).
Proof.
  unfold openMobile.
  destruct (mobileNav p) as [n |] eqn:Hn, (hamburger p) as [h |] eqn:Hh;
    cbn [querySelector mobileClose hamburger mobileNav];
    rewrite ?Hn, ?Hh; split_and!; try reflexivity;
    split; intros [x Hx]; eauto; discriminate.
Qed.

Lemma closeMobile_closed (p : Page) :
  is_Some (hamburger p) \/ isOpen p = false -> isOpen (closeMobile p) = false.
Proof.
  unfold closeMobile, isOpen.
  destruct (mobileNav p) as [n |] eqn:Hn; [| now rewrite Hn].
  destruct (hamburger p) as [h |] eqn:Hh.
  - intros _. cbn [mobileNav classList]. apply bool_decide_eq_false_2.
    rewrite elem_of_difference, elem_of_singleton. tauto.
  - rewrite Hn. intros [[x Hx] | H]; [discriminate | exact H].
Qed.

Lemma openMobile_open (p : Page) :
  is_Some (mobileNav p) -> is_Some (hamburger p) ->
  isOpen (openMobile p) = true.
Proof.
  intros [n Hn] [h Hh]. unfold openMobile, isOpen. rewrite Hn, Hh.
  cbn [mobileNav classList]. apply bool_decide_eq_true_2.
  apply elem_of_union. right. now apply elem_of_singleton.
Qed.

Lemma synced_openMobile (p : Page) : synced p -> synced (openMobile p).
Proof.
  unfold synced, openMobile.
  destruct (mobileNav p) as [n |] eqn:Hn, (hamburger p) as [h |] eqn:Hh;
    cbn [mobileNav hamburger]; rewrite ?Hn, ?Hh; try tauto.
  intros _. cbn [classList attributes].
  rewrite bool_decide_eq_true_2
    by (apply elem_of_union; right; now apply elem_of_singleton).
  split; apply lookup_insert_eq.
Qed.

Lemma synced_closeMobile (p : Page) : synced p -> synced (closeMobile p).
Proof.
  unfold synced, closeMobile.
  destruct (mobileNav p) as [n |] eqn:Hn, (hamburger p) as [h |] eqn:Hh;
    cbn [mobileNav hamburger]; rewrite ?Hn, ?Hh; try tauto.
  intros _. cbn [classList attributes].
  rewrite bool_decide_eq_false_2
    by (rewrite elem_of_difference, elem_of_singleton; tauto).
  split; apply lookup_insert_eq.
Qed.

(** What one scroll listener can do to the page: close the panel, or
    nothing. *)
Lemma scrollListener_page (a : Link) (d : Dispatch) :
  page (scrollListener a d) = page d \/
  page (scrollListener a d) = closeMobile (page d).
Proof.
  unfold scrollListener.
  destruct (href a) as [h |]; [| now left].
  destruct (negb (truthy h) || negb (startsWithHash h)); [now left |].
  destruct (querySelector (page d) h) as [[t |] |]; [| now left ..].
  cbn [page]. destruct (isOpen (page d)); auto.
Qed.

(** A property of pages that closing keeps holds after a click on a
    link. *)
Lemma clickLink_page_ind (P : Page -> Prop) (a : Link) (p : Page) :
  (forall q, P q -> P (closeMobile q)) -> P p -> P (page (clickLink a p)).
Proof.
  intros Hc Hp. unfold clickLink.
  induction (scrollListeners a) as [| n IH].
  - simpl. destruct (mobileLink a); auto.
  - rewrite Nat.iter_succ.
    destruct (scrollListener_page a
                (Nat.iter n (scrollListener a)
                   {| page := if mobileLink a then closeMobile p else p;
                      prevented := false; scrolls := [] |})) as [-> | ->];
      auto.
Qed.

Lemma handle_page_ind (P : Page -> Prop) (ev : Event) (p : Page) :
  (forall q, P q -> P (closeMobile q)) ->
  (ev = ClickHamburger -> P p -> P (openMobile p)) ->
  P p -> P (handle ev p).
Proof.
  intros Hc Ho Hp. destruct ev as [ | | a | key]; simpl.
  - destruct (hamburger p); auto.
  - destruct (mobileClose p); auto.
  - now apply clickLink_page_ind.
  - destruct (decide (key = escape_key)); [| exact Hp].
    destruct (isOpen p); auto.
Qed.

(** X21: the burger opens the panel and Escape closes it, and the class
    [open] and the two ARIA attributes never drift apart: once they agree,
    they agree after every sequence of clicks and key presses. *)
Theorem nav_stays_synced (evs : list Event) (p : Page) :
  is_Some (mobileNav p) -> is_Some (hamburger p) ->
  isOpen (handle ClickHamburger p) = true /\
  synced (handle ClickHamburger p) /\
  isOpen (handle (KeyDown escape_key) p) = false /\
  (synced p -> synced (run evs p)).
Proof.
  intros Hn Hh. split_and!.
  - destruct Hh as [h Hh]. simpl. rewrite Hh.
    apply openMobile_open; [exact Hn | rewrite Hh; eauto].
  - destruct Hh as [h Hh]. simpl. rewrite Hh.
    destruct Hn as [n Hn]. unfold synced, openMobile. rewrite Hn, Hh.
    cbn [mobileNav hamburger classList attributes].
    rewrite bool_decide_eq_true_2
      by (apply elem_of_union; right; now apply elem_of_singleton).
    split; apply lookup_insert_eq.
  - cbn [handle]. rewrite decide_True by reflexivity.
    destruct (isOpen p) eqn:Ho; [| exact Ho].
    apply closeMobile_closed. now left.
  - clear Hn Hh. revert p. induction evs as [| ev evs IH]; intros p Hs; simpl.
    + exact Hs.
    + apply IH. apply handle_page_ind; auto using synced_closeMobile.
      intros _. apply synced_openMobile.
Qed.

Lemma nav_stays_synced_witness :
  isOpen (handle ClickHamburger sample_page) = true /\
  synced (handle ClickHamburger sample_page) /\
  isOpen (handle (KeyDown escape_key) sample_page) = false /\
  (synced sample_page ->
   synced (run [ClickHamburger; ClickLink about_link] sample_page)).
Proof.
  apply (nav_stays_synced [ClickHamburger; ClickLink about_link] sample_page);
    vm_compute; eauto.
Defined.

(** X22: nothing but a click on the burger opens the panel: a closed panel
    stays closed under every sequence of other events. *)
Theorem only_the_burger_opens (evs : list Event) (p : Page) :
  isOpen p = false ->
  ClickHamburger ∉ evs ->
  isOpen (run evs p) = false.
Proof.
  revert p. induction evs as [| ev evs IH]; intros p Hc Hno; simpl.
  - exact Hc.
  - apply not_elem_of_cons in Hno as [Hne Hno].
    apply IH; [| exact Hno].
    apply (handle_page_ind (fun q => isOpen q = false)).
    + intros q Hq. apply closeMobile_closed. now right.
    + intros ->. contradiction.
    + exact Hc.
Qed.

Lemma only_the_burger_opens_witness :
  isOpen (run [ClickLink about_link; KeyDown (js "Enter"); ClickClose]
            sample_page) = false.
Proof.
  apply (only_the_burger_opens
           [ClickLink about_link; KeyDown (js "Enter"); ClickClose]
           sample_page).
  - reflexivity.
  - intros H. repeat (apply elem_of_cons in H as [H | H]; [discriminate |]).
    now apply elem_of_nil in H.
Defined.

(** X23: when the panel or the burger is missing from the page, opening
    and closing are switched off altogether: no sequence of events changes
    anything, not even a close button or Escape on a panel that is open. *)
Theorem missing_element_disables_nav (evs : list Event) (p : Page) :
  mobileNav p = None \/ hamburger p = None ->
  run evs p = p.
Proof.
  intros Hm. induction evs as [| ev evs IH]; simpl; [reflexivity |].
  assert (Hh : handle ev p = p).
  { apply (handle_page_ind (fun q => q = p)).
    - intros q ->. now apply missing_element.
    - intros _ _. now apply missing_element.
    - reflexivity. }
  rewrite Hh. exact IH.
Qed.

Lemma missing_element_disables_nav_witness :
  run [ClickClose; KeyDown escape_key]
    {| mobileNav := Some {| classList := {[ open_class ]}; attributes := ∅ |};
       hamburger := None; mobileClose := true;
       querySelector := querySelector sample_page |}
  = {| mobileNav := Some {| classList := {[ open_class ]}; attributes := ∅ |};
       hamburger := None; mobileClose := true;
       querySelector := querySelector sample_page |}.
Proof.
  apply (missing_element_disables_nav [ClickClose; KeyDown escape_key]).
  right. reflexivity.
Defined.

End NavSteps.

(** ** In-page links *)

Section LinkSteps.

Import Nav.

Lemma iter_querySelector (a : Link) (n : nat) (d : Dispatch) :
  querySelector (page (Nat.iter n (scrollListener a) d))
  = querySelector (page d).
Proof.
  induction n as [| n IH]; [reflexivity |].
  rewrite Nat.iter_succ.
  destruct (scrollListener_page a (Nat.iter n (scrollListener a) d))
    as [-> | ->]; [exact IH |].
  destruct (closeMobile_fields (page (Nat.iter n (scrollListener a) d)))
    as [-> _]. exact IH.
Qed.

Lemma start_querySelector (a : Link) (p : Page) :
  querySelector (if mobileLink a then closeMobile p else p) = querySelector p.
Proof.
  destruct (mobileLink a); [| reflexivity].
  now destruct (closeMobile_fields p) as [-> _].
Qed.

Lemma truthy_hash (h : jsstring) : startsWithHash h = true -> truthy h = true.
Proof. destruct h; [discriminate | reflexivity]. Qed.

(** X24: a click on a link whose [href] starts with "#" and resolves to an
    element cancels the default jump, scrolls to that element once for
    every scroll listener the link carries (twice for a [nav-link] anchor,
    which is listed twice), and leaves the mobile panel closed. *)
Theorem resolved_link_scrolls
    (a : Link) (p : Page) (h : jsstring) (target : nat) :
  href a = Some h ->
  startsWithHash h = true ->
  querySelector p h = Theme.Returns (Some target) ->
  (0 < scrollListeners a)%nat ->
  prevented (clickLink a p) = true /\
  scrolls (clickLink a p) = replicate (scrollListeners a) target /\
  (is_Some (hamburger p) -> isOpen (page (clickLink a p)) = false).
Proof.
  intros Hh Hs Hq Hpos. unfold clickLink.
  set (d0 := {| page := if mobileLink a then closeMobile p else p;
                prevented := false; scrolls := [] |}).
  assert (Hstep : forall n,
            scrollListener a (Nat.iter n (scrollListener a) d0)
            = {| page :=
                   if isOpen (page (Nat.iter n (scrollListener a) d0))
                   then closeMobile (page (Nat.iter n (scrollListener a) d0))
                   else page (Nat.iter n (scrollListener a) d0);
                 prevented := true;
                 scrolls := scrolls (Nat.iter n (scrollListener a) d0)
                            ++ [target] |}).
  { intros n. unfold scrollListener at 1. rewrite Hh, Hs, (truthy_hash h Hs).
    cbn [negb orb]. rewrite iter_querySelector. subst d0. cbn [page].
    rewrite start_querySelector, Hq. reflexivity. }
  assert (Hham : forall n,
            is_Some (hamburger p) ->
            is_Some (hamburger (page (Nat.iter n (scrollListener a) d0)))).
  { intros n Hk. induction n as [| n IH].
    - subst d0. simpl. destruct (mobileLink a); [| exact Hk].
      now apply closeMobile_fields.
    - rewrite Nat.iter_succ, Hstep. cbn [page].
      destruct (isOpen _); [| exact IH]. now apply closeMobile_fields. }
  destruct (scrollListeners a) as [| n]; [lia |]. clear Hpos.
  rewrite Nat.iter_succ, Hstep. cbn [prevented scrolls page].
  split_and!.
  - reflexivity.
  - rewrite replicate_S_end. f_equal.
    induction n as [| n IH]; [reflexivity |].
    rewrite Nat.iter_succ, Hstep. cbn [scrolls].
    now rewrite IH, replicate_S_end.
  - intros Hk.
    destruct (isOpen (page (Nat.iter n (scrollListener a) d0))) eqn:Ho;
      [| exact Ho].
    apply closeMobile_closed. left. now apply Hham.
Qed.

Lemma resolved_link_scrolls_witness :
  prevented (clickLink about_link (openMobile sample_page)) = true /\
  scrolls (clickLink about_link (openMobile sample_page))
    = replicate (scrollListeners about_link) 7 /\
  (is_Some (hamburger (openMobile sample_page)) ->
   isOpen (page (clickLink about_link (openMobile sample_page))) = false).
Proof.
  apply (resolved_link_scrolls about_link (openMobile sample_page)
           (js "#about") 7); vm_compute; try reflexivity; lia.
Defined.

(** X25: a click on a link without [href], with an [href] that does not
    start with "#", or whose selector finds nothing or cannot be parsed,
    leaves the default action alone and scrolls nowhere; the page is
    touched only by the close listener of a mobile link. *)
Theorem unresolved_link_is_left_alone (a : Link) (p : Page) :
  (href a = None \/
   exists h, href a = Some h /\
             (startsWithHash h = false \/
              querySelector p h = Theme.Throws \/
              querySelector p h = Theme.Returns None)) ->
  clickLink a p
  = {| page := if mobileLink a then closeMobile p else p;
       prevented := false;
       scrolls := [] |}.
Proof.
  intros Hu. unfold clickLink.
  set (d0 := {| page := if mobileLink a then closeMobile p else p;
                prevented := false; scrolls := [] |}).
  assert (Hid : scrollListener a d0 = d0).
  { unfold scrollListener.
    destruct Hu as [-> | (h & -> & Hc)]; [reflexivity |].
    destruct (negb (truthy h) || negb (startsWithHash h)) eqn:Hg;
      [reflexivity |].
    apply orb_false_iff in Hg as [_ Hg]. apply negb_false_iff in Hg.
    subst d0. cbn [page]. rewrite start_querySelector.
    destruct Hc as [Hc | [-> | ->]]; [congruence | reflexivity ..]. }
  induction (scrollListeners a) as [| n IH]; [reflexivity |].
  rewrite Nat.iter_succ, IH. exact Hid.
Qed.

Lemma unresolved_link_is_left_alone_witness :
  clickLink {| navLink := true; mobileLink := true; anchor := true;
               href := Some (js "#") |} (openMobile sample_page)
  = {| page := closeMobile (openMobile sample_page);
       prevented := false;
       scrolls := [] |}.
Proof.
  apply (unresolved_link_is_left_alone
           {| navLink := true; mobileLink := true; anchor := true;
              href := Some (js "#") |} (openMobile sample_page)).
  right. exists (js "#"). split; [reflexivity |].
  right. left. reflexivity.
Defined.

End LinkSteps.

(** ** Testimonial carousel: well-behaved hovering *)

Section CarouselHover.

Import Carousel.

Lemma alternating_at_most_one_timer_witness :
  size (timers (run [MouseEnter Track; MouseLeave Track; MouseEnter PrevBtn;
                     Click PrevBtn; Tick 1; MouseLeave PrevBtn]
                  (init [ {| minWidth := [] |}; {| minWidth := [] |} ]
                     true true))) <= 1.
Proof.
  apply (alternating_at_most_one_timer
           [MouseEnter Track; MouseLeave Track; MouseEnter PrevBtn;
            Click PrevBtn; Tick 1; MouseLeave PrevBtn]
           [ {| minWidth := [] |}; {| minWidth := [] |} ] true true).
  reflexivity.
Defined.

End CarouselHover.
